(** * fix-all-logger-signatures.py: the regular-expression rewrite and its driver

    The script reads one file, applies

      re.sub(pattern, replacement, content)

    with

      pattern     = logger\.(warn|info)\(([^,]+),\s*error,\s*\{\s*component:\s*([^}]+)\s*\}\)
      replacement = logger.\1(\2, { component: \3, error })

    and writes the result back.  This development embeds Python text as a
    list of code points, the pattern as a regular-expression syntax tree
    run by a backtracking matcher (all matches listed in the order in which
    a backtracking engine tries them, the head being the match returned),
    the left-to-right scan of [re.sub], and the driver with its arguments,
    file store and standard output. *)

From Stdlib Require Import Ascii String NArith ZArith Bool Lia Arith List.
Import ListNotations.

Arguments N.eqb : simpl never.

(** ** Text *)

Module Text.

(** A Python [str] is a sequence of Unicode code points. *)
Abbreviation char := N (only parsing).
Abbreviation str := (list N) (only parsing).

(** Embedding of a character and of a literal written in ASCII. *)
Definition ch (a : ascii) : char := N_of_ascii a.

Definition text (s : string) : str :=
  List.map N_of_ascii (list_ascii_of_string s).

Arguments ch a%_char.
Arguments text s%_string.

(** [\s] on a [str] pattern: the code points for which Python's
    [str.isspace] table of whitespace answers true. *)
Definition is_space (c : char) : bool :=
  ((9 <=? c) && (c <=? 13) || (28 <=? c) && (c <=? 32) ||
   (c =? 133) || (c =? 160) || (c =? 5760) ||
   (8192 <=? c) && (c <=? 8202) ||
   (c =? 8232) || (c =? 8233) || (c =? 8239) || (c =? 8287) ||
   (c =? 12288))%N.

Arguments is_space : simpl never.

Definition str_eqb (a b : str) : bool :=
  if list_eq_dec N.eq_dec a b then true else false.

(** [strip_prefix p s] removes the literal [p] from the front of [s]. *)
Fixpoint strip_prefix (p s : str) : option str :=
  match p with
  | [] => Some s
  | a :: p' =>
      match s with
      | [] => None
      | d :: s' => if (a =? d)%N then strip_prefix p' s' else None
      end
  end.

(** Longest prefix of characters satisfying [f], and what follows it. *)
Fixpoint take_while (f : char -> bool) (s : str) : str :=
  match s with
  | [] => []
  | d :: s' => if f d then d :: take_while f s' else []
  end.

Fixpoint drop_while (f : char -> bool) (s : str) : str :=
  match s with
  | [] => []
  | d :: s' => if f d then drop_while f s' else s
  end.

(** [is_infix a s]: the text [a] occurs somewhere in [s]. *)
Fixpoint is_infix (a s : str) : bool :=
  match strip_prefix a s with
  | Some _ => true
  | None => match s with [] => false | _ :: s' => is_infix a s' end
  end.

(** Number of positions of [s] at which the text [a] occurs. *)
Fixpoint count_occ_str (a s : str) : nat :=
  match s with
  | [] => match a with [] => 1 | _ => 0 end
  | _ :: s' =>
      (match strip_prefix a s with Some _ => 1 | None => 0 end)
      + count_occ_str a s'
  end.

End Text.
Import Text.

(** ** Regular expressions and the backtracking matcher *)

Module Re.

(** The fragment of Python's pattern syntax the script uses. *)
Inductive regex : Type :=
| REps                          (* the empty pattern *)
| RChar (a : char)              (* a literal character, also an escaped one *)
| RNot (a : char)               (* the class [^a] *)
| RSpace                        (* \s *)
| RSeq (r1 r2 : regex)          (* concatenation *)
| RAlt (r1 r2 : regex)          (* r1|r2, the left branch tried first *)
| RStar (r : regex)             (* greedy r* *)
| RGroup (n : nat) (r : regex). (* the n-th capturing group *)

(** Greedy [r+]. *)
Definition RPlus (r : regex) : regex := RSeq r (RStar r).

(** A run of literal characters. *)
Fixpoint RLit (p : str) : regex :=
  match p with
  | [] => REps
  | a :: p' => RSeq (RChar a) (RLit p')
  end.

(** Captured groups, most recent binding first. *)
Abbreviation captures := (list (nat * list N)) (only parsing).

Fixpoint group (n : nat) (c : captures) : option str :=
  match c with
  | [] => None
  | (k, v) :: c' => if Nat.eqb k n then Some v else group n c'
  end.

(** A way of matching: the captures made and the text left over. *)
Abbreviation results := (list (list (nat * list N) * list N)) (only parsing).

(** Greedy iteration: one more round of the body first (only when it
    consumed something), stopping here last. *)
Fixpoint star_loop (body : str -> captures -> results)
         (fuel : nat) (s : str) (c : captures) : results :=
  match fuel with
  | O => [(c, s)]
  | S n =>
      flat_map (fun cs : captures * str =>
                  if Nat.ltb (length (snd cs)) (length s)
                  then star_loop body n (snd cs) (fst cs) else [])
               (body s c)
      ++ [(c, s)]
  end.

(** All the ways [r] matches a prefix of [s], in the order a backtracking
    engine explores them. *)
Fixpoint rmatch (r : regex) (s : str) (c : captures) : results :=
  match r with
  | REps => [(c, s)]
  | RChar a =>
      match s with
      | d :: s' => if (a =? d)%N then [(c, s')] else []
      | [] => []
      end
  | RNot a =>
      match s with
      | d :: s' => if (a =? d)%N then [] else [(c, s')]
      | [] => []
      end
  | RSpace =>
      match s with
      | d :: s' => if is_space d then [(c, s')] else []
      | [] => []
      end
  | RSeq r1 r2 =>
      flat_map (fun cs : captures * str => rmatch r2 (snd cs) (fst cs))
               (rmatch r1 s c)
  | RAlt r1 r2 => rmatch r1 s c ++ rmatch r2 s c
  | RStar r1 => star_loop (rmatch r1) (length s) s c
  | RGroup n r1 =>
      List.map (fun cs : captures * str =>
                  ((n, firstn (length s - length (snd cs)) s) :: fst cs,
                   snd cs))
               (rmatch r1 s c)
  end.

(** The match found at the start of [s], if any: the first way. *)
Definition match_at (r : regex) (s : str) : option (captures * str) :=
  hd_error (rmatch r s []).

(** Replacement templates: literal text and group references [\n]. *)
Inductive titem : Type :=
| TText (t : str)
| TGroup (n : nat).

Abbreviation template := (list titem) (only parsing).

Definition expand_item (c : captures) (i : titem) : str :=
  match i with
  | TText t => t
  | TGroup n => match group n c with Some v => v | None => [] end
  end.

Definition expand (t : template) (c : captures) : str :=
  flat_map (expand_item c) t.

(** What the scan of [re.sub] sees: a character copied, or a match. *)
Inductive piece : Type :=
| Keep (d : char)
| Hit (matched : str) (c : captures).

(** The scan: at each position not covered by an earlier match the pattern
    is tried; a match of [k] characters covers the next [k] positions.
    [skip] counts the positions still covered. *)
Fixpoint scan_from (r : regex) (skip : nat) (s : str) : list piece :=
  match s with
  | [] =>
      match skip, match_at r [] with
      | O, Some (c, _) => [Hit [] c]
      | _, _ => []
      end
  | d :: s' =>
      match skip with
      | S k => scan_from r k s'
      | O =>
          match match_at r s with
          | Some (c, rest) =>
              let k := length s - length rest in
              match k with
              | O => Hit [] c :: Keep d :: scan_from r 0 s'
              | S k' => Hit (firstn k s) c :: scan_from r k' s'
              end
          | None => Keep d :: scan_from r 0 s'
          end
      end
  end.

Definition scan (r : regex) (s : str) : list piece := scan_from r 0 s.

Definition render (t : template) (p : piece) : str :=
  match p with
  | Keep d => [d]
  | Hit _ c => expand t c
  end.

Definition source (p : piece) : str :=
  match p with
  | Keep d => [d]
  | Hit m _ => m
  end.

(** [re.sub(r, t, s)]. *)
Definition sub (r : regex) (t : template) (s : str) : str :=
  flat_map (render t) (scan r s).

End Re.
Import Re.

(** ** The script's pattern and replacement *)

Declare Scope re_scope.
Delimit Scope re_scope with re.
Notation "r1 ## r2" := (RSeq r1 r2)
  (at level 61, right associativity) : re_scope.

Module Script.

Definition ws : regex := RStar RSpace.

(** [logger\.(warn|info)\(([^,]+),\s*error,\s*\{\s*component:\s*([^}]+)\s*\}\)] *)
Definition pattern : regex :=
  (RLit (text "logger.") ##
   RGroup 1 (RAlt (RLit (text "warn")) (RLit (text "info"))) ##
   RChar (ch "(") ##
   RGroup 2 (RPlus (RNot (ch ","))) ##
   RChar (ch ",") ## ws ##
   RLit (text "error,") ## ws ##
   RChar (ch "{") ## ws ##
   RLit (text "component:") ## ws ##
   RGroup 3 (RPlus (RNot (ch "}"))) ## ws ##
   RChar (ch "}") ## RChar (ch ")"))%re.

(** [logger.\1(\2, { component: \3, error })] *)
Definition replacement : template :=
  [TText (text "logger."); TGroup 1; TText (text "("); TGroup 2;
   TText (text ", { component: "); TGroup 3; TText (text ", error })")].

(** [content_fixed = re.sub(pattern, replacement, content)] *)
Definition content_fixed (content : str) : str :=
  sub pattern replacement content.

End Script.
Import Script.

(** ** The pattern, read stage by stage

    [match_direct] is the match of the script's pattern written as the
    sequence of its stages; [match_at_pattern] shows that the backtracking
    matcher returns exactly this. *)

Module Direct.

Definition not_comma (d : char) : bool := negb (ch "," =? d)%N.
Definition not_close (d : char) : bool := negb (ch "}" =? d)%N.

Definition bind {A B : Type} (o : option A) (k : A -> option B) : option B :=
  match o with
  | Some a => k a
  | None => None
  end.

Notation "x <- e ;; k" := (bind e (fun x => k))
  (at level 62, e at next level, right associativity).

(** [(warn|info)] *)
Definition level_of (s : str) : option (str * str) :=
  match strip_prefix (text "warn") s with
  | Some s' => Some (text "warn", s')
  | None =>
      match strip_prefix (text "info") s with
      | Some s' => Some (text "info", s')
      | None => None
      end
  end.

(** [([^,]+)] followed by the comma. *)
Definition message_of (s : str) : option (str * str) :=
  match s with
  | [] => None
  | d :: _ =>
      if not_comma d
      then s' <- strip_prefix (text ",") (drop_while not_comma s) ;;
           Some (take_while not_comma s, s')
      else None
  end.

(** [\s*([^}]+)\s*\}\)]: the text up to the first closing brace, which
    [)] must follow; group 3 is that text without its leading whitespace,
    or its last character when it is all whitespace. *)
Definition value_of (s : str) : option (str * str) :=
  let r := take_while not_close s in
  rest <- strip_prefix (text "})") (drop_while not_close s) ;;
  match drop_while is_space r with
  | (_ :: _) as g => Some (g, rest)
  | [] =>
      match r with
      | [] => None
      | _ :: _ => Some ([last r 0%N], rest)
      end
  end.

Definition match_direct (t : str) : option (captures * str) :=
  t1 <- strip_prefix (text "logger.") t ;;
  lv <- level_of t1 ;;
  t3 <- strip_prefix (text "(") (snd lv) ;;
  ms <- message_of t3 ;;
  t7 <- strip_prefix (text "error,") (drop_while is_space (snd ms)) ;;
  t9 <- strip_prefix (text "{") (drop_while is_space t7) ;;
  t11 <- strip_prefix (text "component:") (drop_while is_space t9) ;;
  vr <- value_of t11 ;;
  Some ([(3, fst vr); (2, fst ms); (1, fst lv)], snd vr).

(** The text the replacement template produces for a match. *)
Definition rewritten (lvl m v : str) : str :=
  text "logger." ++ lvl ++ text "(" ++ m ++ text ", { component: " ++ v
  ++ text ", error })".

End Direct.
Import Direct.

(** ** Building blocks of the pattern, named for the proofs *)

Module Blocks.

(** A pattern that matches exactly one character, those of [f]. *)
Definition is_class (r : regex) (f : char -> bool) : Prop :=
  forall s c,
    rmatch r s c =
    match s with
    | d :: s' => if f d then [(c, s')] else []
    | [] => []
    end.

(** The ways a greedy repetition of a class matches: every prefix of the
    run, the longest first. *)
Fixpoint star_list (f : char -> bool) (s : str) (c : captures) : results :=
  match s with
  | [] => [(c, [])]
  | d :: s' => if f d then star_list f s' c ++ [(c, s)] else [(c, s)]
  end.

(** [\s*\}\)] *)
Definition closing : regex := (ws ## RChar (ch "}") ## RChar (ch ")"))%re.

(** [([^}]+)\s*\}\)] *)
Definition value_group : regex :=
  (RGroup 3 (RPlus (RNot (ch "}"))) ## closing)%re.

(** The pattern after the level: [\(([^,]+),\s*error,\s*\{\s*component:]
    and the value. *)
Definition arguments : regex :=
  (RChar (ch "(") ##
   RGroup 2 (RPlus (RNot (ch ","))) ##
   RChar (ch ",") ## ws ##
   RLit (text "error,") ## ws ##
   RChar (ch "{") ## ws ##
   RLit (text "component:") ## ws ## value_group)%re.

End Blocks.
Import Blocks.

(** ** The matched call-site shape

    The texts the pattern matches, described piece by piece:

      logger.<level>(<message>,<w1>error,<w2>{<w3>component:<w4><value>})

    with [<level>] one of [warn] and [info], [<message>] a non-empty run
    without comma, [<w1>]..[<w4>] runs of whitespace and [<value>] a
    non-empty run without closing brace that takes up all the text after
    the whitespace (when that text is whitespace only, its last
    character). *)

Module Shape.

Record site : Type := {
  s_level : str;
  s_message : str;
  s_w1 : str;
  s_w2 : str;
  s_w3 : str;
  s_w4 : str;
  s_value : str
}.

Definition level_ok (lvl : str) : bool :=
  str_eqb lvl (text "warn") || str_eqb lvl (text "info").

Definition message_ok (m : str) : bool :=
  match m with
  | [] => false
  | _ :: _ => forallb not_comma m
  end.

Definition value_ok (v : str) : bool :=
  match v with
  | [] => false
  | d :: v' =>
      forallb not_close v &&
      (negb (is_space d) || match v' with [] => true | _ :: _ => false end)
  end.

Definition site_ok (x : site) : bool :=
  level_ok (s_level x) && message_ok (s_message x) &&
  forallb is_space (s_w1 x) && forallb is_space (s_w2 x) &&
  forallb is_space (s_w3 x) && forallb is_space (s_w4 x) &&
  value_ok (s_value x).

Definition site_text (x : site) : str :=
  text "logger." ++ s_level x ++ text "(" ++ s_message x ++ text "," ++
  s_w1 x ++ text "error," ++ s_w2 x ++ text "{" ++ s_w3 x ++
  text "component:" ++ s_w4 x ++ s_value x ++ text "})".

(** The groups the match of a call site captures. *)
Definition site_captures (x : site) : captures :=
  [(3, s_value x); (2, s_message x); (1, s_level x)].

(** What the call site becomes. *)
Definition site_rewritten (x : site) : str :=
  rewritten (s_level x) (s_message x) (s_value x).

(** [t] starts with a call site of the matched shape. *)
Definition starts_with_site (t : str) : Prop :=
  exists x rest, site_ok x = true /\ t = site_text x ++ rest.

(** [s] contains a call site of the matched shape. *)
Definition contains_site (s : str) : Prop :=
  exists before t, s = before ++ t /\ starts_with_site t.

End Shape.
Import Shape.

(** ** The rewrite as a left-to-right pass over call sites *)

Module Pass.

(** Whether the pattern matches somewhere in [s]. *)
Fixpoint has_match (s : str) : bool :=
  match match_direct s with
  | Some _ => true
  | None => match s with [] => false | _ :: s' => has_match s' end
  end.

(** [rewrites s out]: [out] is [s] with, from left to right, every
    character at which no call site starts copied, and every call site met
    replaced by its rewritten form, the pass resuming after it. *)
Inductive rewrites : str -> str -> Prop :=
| rw_end : rewrites [] []
| rw_keep d s out :
    ~ starts_with_site (d :: s) ->
    rewrites s out -> rewrites (d :: s) (d :: out)
| rw_site x rest out :
    site_ok x = true ->
    rewrites rest out ->
    rewrites (site_text x ++ rest) (site_rewritten x ++ out).

End Pass.
Import Pass.

(** ** The pattern as a machine that reads one character at a time

    Whether the pattern matches at the start of a text does not depend on
    the groups: it is decided by reading the text from left to right with
    what is left of the pattern as the state.  This form serves to relate
    matches in a rewritten text to matches in the original. *)

Module Machine.

Inductive cls : Type := Space | NotComma | NotClose.

Definition in_cls (k : cls) (d : char) : bool :=
  match k with
  | Space => is_space d
  | NotComma => not_comma d
  | NotClose => not_close d
  end.

Inductive item : Type :=
| Ch (a : char)     (* this character *)
| One (k : cls)     (* one character of the class *)
| Many (k : cls).   (* as many characters of the class as there are *)

(** What is left to match after reading [d]; [None] when [d] does not
    fit.  Nothing left to match is [[]], which any text satisfies. *)
Fixpoint step (q : list item) (d : char) : option (list item) :=
  match q with
  | [] => Some []
  | Ch a :: q' => if (a =? d)%N then Some q' else None
  | One k :: q' => if in_cls k d then Some q' else None
  | Many k :: q' => if in_cls k d then Some (Many k :: q') else step q' d
  end.

Fixpoint run (q : list item) (s : str) : option (list item) :=
  match s with
  | [] => Some q
  | d :: s' =>
      match step q d with
      | Some q' => run q' s'
      | None => None
      end
  end.

Definition accepts (q : list item) (s : str) : bool :=
  match run q s with
  | Some [] => true
  | _ => false
  end.

Definition chars (p : str) : list item := List.map Ch p.

(** The pattern for one of the two levels. *)
Definition items (lvl : str) : list item :=
  chars (text "logger.") ++ chars lvl ++ chars (text "(") ++
  [One NotComma; Many NotComma] ++ chars (text ",") ++
  [Many Space] ++ chars (text "error,") ++
  [Many Space] ++ chars (text "{") ++
  [Many Space] ++ chars (text "component:") ++
  [One NotClose; Many NotClose] ++ chars (text "})").

Definition matches (t : str) : bool :=
  accepts (items (text "warn")) t || accepts (items (text "info")) t.

(** The states a run can be in: what is left of the pattern. *)
Definition suffixes (q : list item) : list (list item) :=
  List.map (fun k => skipn k q) (seq 0 (S (length q))).

(** The items after the level. *)
Definition after_level : list item :=
  chars (text "(") ++
  [One NotComma; Many NotComma] ++ chars (text ",") ++
  [Many Space] ++ chars (text "error,") ++
  [Many Space] ++ chars (text "{") ++
  [Many Space] ++ chars (text "component:") ++
  [One NotClose; Many NotClose] ++ chars (text "})").

(** The state reading a value: [[^}]*\}\)]. *)
Definition in_value : list item :=
  [Many NotClose; Ch (ch "}"); Ch (ch ")")].

(** The state reading a first argument. *)
Definition in_message (q : list item) : list item :=
  Many NotComma :: Ch (ch ",") :: Many Space :: Ch (ch "e") :: q.

(** How many items [Ch a] a state still has to read. *)
Definition pending (a : char) (q : list item) : nat :=
  length (filter (fun i => match i with Ch b => (a =? b)%N | _ => false end) q).

(** Whether a result is there. *)
Definition found {A : Type} (o : option A) : bool :=
  match o with Some _ => true | None => false end.

End Machine.
Import Machine.

(** ** Matches in a rewritten text *)

Module Twice.

Definition no_open (d : char) : bool := negb (ch "{" =? d)%N.

(** No value captured by a match of the scan holds an opening brace. *)
Definition values_flat (s : str) : bool :=
  forallb (fun p => match p with
                    | Keep _ => true
                    | Hit _ c => match group 3 c with
                                 | Some v => forallb no_open v
                                 | None => true
                                 end
                    end)
          (scan pattern s).

(** Every state that still has [n] items [Ch a] to read fails on
    [tail]. *)
Definition dies (q0 : list item) (a : char) (n : nat) (tail : str) : bool :=
  forallb (fun q => implb (Nat.eqb (pending a q) n)
                          (negb (found (run q tail))))
          (suffixes q0).

End Twice.
Import Twice.

(** ** The driver: arguments, the file store and standard output

    Files are held as their characters; reading and writing go through
    Python's text layer, which translates line endings. *)

Module Driver.

Inductive mode : Type := ForReading | ForWriting.

(** File operations, in the order they happen. *)
Inductive event : Type :=
| Opened (path : str) (m : mode)
| ReadAll (path : str)
| Written (path : str) (data : str).

(** The platform, which fixes [os.linesep]. *)
Inductive os : Type := Posix | Windows.

Definition os_linesep (o : os) : str :=
  match o with
  | Posix => [10%N]
  | Windows => [13%N; 10%N]
  end.

Record world : Type := {
  files : str -> option str;  (* the characters of each readable file *)
  writable : str -> bool;     (* whether a path can be opened for writing *)
  platform : os
}.

(** Reading in text mode with the default [newline=None]: [\r\n] and a
    lone [\r] are read as [\n]. *)
Fixpoint universal_newlines (s : str) : str :=
  match s with
  | [] => []
  | d :: s' =>
      if (d =? 13)%N
      then 10%N :: match s' with
                   | [] => []
                   | e :: s'' =>
                       if (e =? 10)%N then universal_newlines s''
                       else universal_newlines s'
                   end
      else d :: universal_newlines s'
  end.

(** Writing in text mode with the default [newline=None]: every [\n] is
    written as [os.linesep]. *)
Definition host_newlines (o : os) (s : str) : str :=
  flat_map (fun d => if (d =? 10)%N then os_linesep o else [d]) s.

Definition not_cr (d : char) : bool := negb (d =? 13)%N.

Record state : Type := {
  st_world : world;
  st_stdout : str;
  st_log : list event
}.

Inductive result (A : Type) : Type :=
| Ok (a : A)
| Exited (code : Z)        (* sys.exit(code) *)
| Raised (path : str).     (* an uncaught OSError on [path] *)

Arguments Ok {A} a.
Arguments Exited {A} code.
Arguments Raised {A} path.

Definition IO (A : Type) : Type := state -> result A * state.

Definition ret {A : Type} (a : A) : IO A := fun st => (Ok a, st).

Definition io_bind {A B : Type} (m : IO A) (k : A -> IO B) : IO B :=
  fun st =>
    match m st with
    | (Ok a, st') => k a st'
    | (Exited code, st') => (Exited code, st')
    | (Raised p, st') => (Raised p, st')
    end.

Notation "'let!' x ':=' m 'in' k" := (io_bind m (fun x => k))
  (at level 10, x name, m at level 100, k at level 200).
Notation "m '>>' k" := (io_bind m (fun _ => k))
  (at level 65, right associativity).

Definition log (e : event) : IO unit :=
  fun st => (Ok tt, {| st_world := st_world st;
                       st_stdout := st_stdout st;
                       st_log := st_log st ++ [e] |}).

Definition newline : str := [10%N].

(** [print(line)]: the line and a newline go to standard output. *)
Definition print (line : str) : IO unit :=
  fun st => (Ok tt, {| st_world := st_world st;
                       st_stdout := st_stdout st ++ line ++ newline;
                       st_log := st_log st |}).

(** [sys.exit(code)] *)
Definition sys_exit {A : Type} (code : Z) : IO A :=
  fun st => (Exited code, st).

(** [with open(path, 'r') as f: f.read()] *)
Definition read_text (path : str) : IO str :=
  fun st =>
    match files (st_world st) path with
    | Some content =>
        (log (Opened path ForReading) >> log (ReadAll path) >>
         ret (universal_newlines content)) st
    | None => (Raised path, st)
    end.

Definition put_file (w : world) (path data : str) : world :=
  {| files := fun p => if str_eqb p path then Some data else files w p;
     writable := writable w;
     platform := platform w |}.

(** [with open(path, 'w') as f: f.write(data)] *)
Definition write_text (path data : str) : IO unit :=
  fun st =>
    if writable (st_world st) path
    then (Ok tt, {| st_world :=
                      put_file (st_world st) path
                               (host_newlines (platform (st_world st)) data);
                    st_stdout := st_stdout st;
                    st_log := st_log st ++ [Opened path ForWriting;
                                            Written path data] |})
    else (Raised path, st).

Definition usage : str :=
  text "Usage: python3 fix-all-logger-signatures.py <file>".

(** [sys.argv[1] if len(sys.argv) > 1 else None] *)
Definition file_path (argv : list str) : option str :=
  if Nat.ltb 1 (length argv) then nth_error argv 1 else None.

(** [not file_path]: [None] and the empty string are false values. *)
Definition falsy (p : option str) : bool :=
  match p with
  | None => true
  | Some [] => true
  | Some (_ :: _) => false
  end.

(** A one-armed [if]. *)
Definition when (b : bool) (m : IO unit) : IO unit :=
  if b then m else ret tt.

(** The value of [file_path] where it is used as a path. *)
Definition as_path (p : option str) : str :=
  match p with
  | Some path => path
  | None => []
  end.

(** The script. *)
Definition main (argv : list str) : IO unit :=
  let fp := file_path argv in
  when (falsy fp) (print usage >> sys_exit 1) >>
  let! content := read_text (as_path fp) in
  let fixed := content_fixed content in
  write_text (as_path fp) fixed >>
  print (text "Fixed: " ++ as_path fp).

(** The status the process ends with: 0 when the script runs to its end,
    the argument of [sys.exit], 1 after an uncaught exception. *)
Definition exit_status {A : Type} (r : result A) : Z :=
  match r with
  | Ok _ => 0
  | Exited code => code
  | Raised _ => 1
  end.

End Driver.
Import Driver.

(** ** Example texts *)

Module Examples.

Definition cache_miss_line : str :=
  text "logger.warn('Cache miss', error, { component: 'cache', extra: 1 })".

Definition saved_record_line : str :=
  text "logger.info('Saved record:', error, { component: 'storage' })".

Definition msg_line : str :=
  text "logger.warn('msg', error, { component: 'X' })".

Definition mylogger_site : site :=
  {| s_level := text "warn"; s_message := text "'m'";
     s_w1 := text " "; s_w2 := text " "; s_w3 := text " "; s_w4 := text " ";
     s_value := text "'x' " |}.

Definition error_level_line : str :=
  text "logger.error('x', error, { component: 'c' })".

(** A warn call whose message is the result of an error-level call. *)
Definition error_inside_warn : str :=
  text "logger.warn(logger.error('m', error, { component: 'x' }), error, { component: 'y' })".

Definition inner_error_call : str :=
  text "logger.error('m', error, { component: 'x' })".

(** A warn call whose component value is computed by a callback that
    itself logs. *)
Definition nested_call : str :=
  text "logger.warn('a', error, { component: f(() => logger.warn('b', error, { component: 'c' })) })".

(** A store with one writable file, and a run on it. *)
Definition one_file (path content : str) : world :=
  {| files := fun p => if str_eqb p path then Some content else None;
     writable := fun p => str_eqb p path;
     platform := Posix |}.

Definition start (w : world) : state :=
  {| st_world := w; st_stdout := []; st_log := [] |}.

Definition script_name : str := text "fix-all-logger-signatures.py".

End Examples.
Import Examples.

(** ** Further example texts and stores *)

Module MoreExamples.

(** A line break followed by two spaces of indentation. *)
Definition line_break : str := [10%N; 32%N; 32%N].

(** A call site laid out over three lines, without whitespace inside the
    braces. *)
Definition multi_line_site : site :=
  {| s_level := text "info"; s_message := text "'m'";
     s_w1 := line_break; s_w2 := line_break; s_w3 := []; s_w4 := [];
     s_value := text "'x'" |}.

(** A store with one file that can be read and not written. *)
Definition read_only_file (path content : str) : world :=
  {| files := fun p => if str_eqb p path then Some content else None;
     writable := fun _ => false;
     platform := Posix |}.

(** A store without any file. *)
Definition no_file : world :=
  {| files := fun _ => None; writable := fun _ => true;
     platform := Posix |}.


(** A text without call site whose lines end in [\r\n]. *)
Definition crlf_text : str :=
  text "a" ++ [13%N; 10%N] ++ text "b".

End MoreExamples.
Import MoreExamples.

(** ** The courses a run can take *)

Module Courses.

(** Every run of the script takes one of four courses. *)
Inductive course (argv : list (list N)) (st : state) : Prop :=
| course_usage :
    falsy (file_path argv) = true ->
    main argv st =
      (Exited 1, {| st_world := st_world st;
                    st_stdout := st_stdout st ++ usage ++ newline;
                    st_log := st_log st |}) ->
    course argv st
| course_unreadable path :
    file_path argv = Some path -> path <> [] ->
    files (st_world st) path = None ->
    main argv st = (Raised path, st) ->
    course argv st
| course_unwritable path content :
    file_path argv = Some path -> path <> [] ->
    files (st_world st) path = Some content ->
    writable (st_world st) path = false ->
    main argv st =
      (Raised path,
       {| st_world := st_world st;
          st_stdout := st_stdout st;
          st_log := st_log st ++ [Opened path ForReading; ReadAll path] |}) ->
    course argv st
| course_fixed path content :
    file_path argv = Some path -> path <> [] ->
    files (st_world st) path = Some content ->
    writable (st_world st) path = true ->
    main argv st =
      (Ok tt,
       {| st_world :=
            put_file (st_world st) path
              (host_newlines (platform (st_world st))
                 (content_fixed (universal_newlines content)));
          st_stdout := st_stdout st ++ (text "Fixed: " ++ path) ++ newline;
          st_log := st_log st ++
                    [Opened path ForReading; ReadAll path;
                     Opened path ForWriting;
                     Written path
                       (content_fixed (universal_newlines content))] |}) ->
    course argv st.

End Courses.
Import Courses.

(** * Proofs *)

(** ** Lists of matches *)

Section ListFacts.

Variables A B : Type.

Lemma flat_map_all_nil (g : A -> list B) (l : list A) :
  (forall x, In x l -> g x = []) -> flat_map g l = [].
Proof.
  induction l as [|x l IH]; simpl; intros H; [reflexivity|].
  rewrite (H x (or_introl eq_refl)), IH; auto.
Qed.

Lemma hd_error_app (l1 l2 : list A) :
  hd_error (l1 ++ l2) =
  match hd_error l1 with Some x => Some x | None => hd_error l2 end.
Proof. destruct l1; reflexivity. Qed.

End ListFacts.

(** ** Text facts *)

Section TextFacts.

Variable f : char -> bool.

Lemma take_drop_while (s : str) : take_while f s ++ drop_while f s = s.
Proof.
  induction s as [|d s IH]; simpl; [reflexivity|].
  destruct (f d); simpl; [now rewrite IH|reflexivity].
Qed.

Lemma take_while_all (s : str) : forallb f (take_while f s) = true.
Proof.
  induction s as [|d s IH]; simpl; [reflexivity|].
  destruct (f d) eqn:E; simpl; [now rewrite E|reflexivity].
Qed.

Lemma drop_while_head (s : str) d s' :
  drop_while f s = d :: s' -> f d = false.
Proof.
  induction s as [|e s IH]; simpl; [discriminate|].
  destruct (f e) eqn:E; [exact IH|].
  intros H; injection H as -> _; exact E.
Qed.

Lemma drop_while_app_all (q s : str) :
  forallb f q = true -> drop_while f (q ++ s) = drop_while f s.
Proof.
  induction q as [|d q IH]; simpl; [reflexivity|].
  destruct (f d); simpl; [exact IH|discriminate].
Qed.

Lemma take_while_app_all (q s : str) :
  forallb f q = true -> take_while f (q ++ s) = q ++ take_while f s.
Proof.
  induction q as [|d q IH]; simpl; [reflexivity|].
  destruct (f d); simpl; [intros H; now rewrite IH|discriminate].
Qed.

Lemma drop_while_stop (s : str) :
  match s with [] => True | d :: _ => f d = false end ->
  drop_while f s = s.
Proof. destruct s as [|d s]; simpl; [reflexivity|]. now intros ->. Qed.

Lemma firstn_take_while (s : str) :
  firstn (length s - length (drop_while f s)) s = take_while f s.
Proof.
  rewrite <- (take_drop_while s) at 1 3.
  rewrite length_app.
  replace (length (take_while f s) + length (drop_while f s)
           - length (drop_while f s))
    with (length (take_while f s) + 0) by lia.
  rewrite firstn_app_2. simpl. apply app_nil_r.
Qed.

End TextFacts.

Lemma strip_prefix_app (p s s' : str) :
  strip_prefix p s = Some s' <-> s = p ++ s'.
Proof.
  revert s; induction p as [|a p IH]; intros s; simpl.
  - split; [now intros [= ->]|now intros ->].
  - destruct s as [|d s]; [split; discriminate|].
    destruct (N.eqb_spec a d) as [->|Hne].
    + rewrite IH. split; [now intros ->|now intros [= ->]].
    + split; [discriminate|intros [= E _]; congruence].
Qed.

Lemma strip_prefix_same (p s : str) : strip_prefix p (p ++ s) = Some s.
Proof. now apply strip_prefix_app. Qed.

Lemma strip_prefix_firstn (p s s' : str) :
  strip_prefix p s = Some s' -> firstn (length s - length s') s = p.
Proof.
  intros H; apply strip_prefix_app in H; subst s.
  rewrite length_app.
  replace (length p + length s' - length s') with (length p + 0) by lia.
  rewrite firstn_app_2. simpl. apply app_nil_r.
Qed.

(** ** What the matcher returns on the pattern's building blocks *)

Module MatchFacts.

Lemma class_space : is_class RSpace is_space.
Proof. intros s c; reflexivity. Qed.

Lemma class_not a : is_class (RNot a) (fun d => negb (a =? d)%N).
Proof. intros [|d s] c; simpl; [reflexivity|]. now destruct (a =? d)%N. Qed.

Lemma class_not_comma : is_class (RNot (ch ",")) not_comma.
Proof. exact (class_not (ch ",")). Qed.

Lemma class_not_close : is_class (RNot (ch "}")) not_close.
Proof. exact (class_not (ch "}")). Qed.

Lemma star_loop_class (body : str -> captures -> results)
      (f : char -> bool) :
  (forall s c, body s c =
               match s with
               | d :: s' => if f d then [(c, s')] else []
               | [] => []
               end) ->
  forall n s c, length s <= n -> star_loop body n s c = star_list f s c.
Proof.
  intros Hb n; induction n as [|n IH]; intros s c Hn.
  - destruct s; [reflexivity|simpl in Hn; lia].
  - simpl. rewrite Hb. destruct s as [|d s]; [reflexivity|].
    simpl. destruct (f d); [|reflexivity].
    simpl. replace (length s <? S (length s)) with true
      by (symmetry; apply Nat.ltb_lt; lia).
    rewrite app_nil_r, IH by (simpl in Hn; lia). reflexivity.
Qed.

Lemma rmatch_star r f s c :
  is_class r f -> rmatch (RStar r) s c = star_list f s c.
Proof. intros H; simpl. now apply star_loop_class. Qed.

Lemma star_list_head f s c :
  exists l, star_list f s c = (c, drop_while f s) :: l.
Proof.
  induction s as [|d s [l IH]]; simpl; [now exists []|].
  destruct (f d); [|now exists []].
  rewrite IH. simpl. now eexists.
Qed.

Lemma star_list_in f s c c' t :
  In (c', t) (star_list f s c) ->
  c' = c /\ exists q, forallb f q = true /\ t = q ++ drop_while f s.
Proof.
  induction s as [|d s IH]; simpl.
  - intros [[= <- <-]|[]]. split; [reflexivity|]. now exists [].
  - destruct (f d) eqn:E.
    + rewrite in_app_iff. intros [H|[[= <- <-]|[]]]; [now apply IH|].
      split; [reflexivity|]. exists (d :: take_while f s). simpl.
      rewrite E, take_while_all, take_drop_while. auto.
    + intros [[= <- <-]|[]]. split; [reflexivity|]. now exists [].
Qed.

(** A repetition followed by something that cannot start inside the run:
    only the longest run is left. *)
Lemma flat_map_star_list (g : captures * str -> results) f s c :
  (forall d s', f d = true -> g (c, d :: s') = []) ->
  flat_map g (star_list f s c) = g (c, drop_while f s).
Proof.
  intros Hg. induction s as [|d s IH]; simpl; [apply app_nil_r|].
  destruct (f d) eqn:E; simpl; [|apply app_nil_r].
  rewrite flat_map_app, IH. simpl. rewrite (Hg d s E). now rewrite !app_nil_r.
Qed.

Lemma flat_map_after_map (A B C : Type) (g : B -> list C) (h : A -> B) l :
  flat_map g (List.map h l) = flat_map (fun x => g (h x)) l.
Proof. induction l as [|x l IH]; simpl; [reflexivity|now rewrite IH]. Qed.

Lemma rmatch_lit p s c :
  rmatch (RLit p) s c =
  match strip_prefix p s with Some s' => [(c, s')] | None => [] end.
Proof.
  revert s; induction p as [|a p IH]; intros s; [reflexivity|].
  destruct s as [|d s]; [reflexivity|]. simpl.
  destruct (a =? d)%N; [|reflexivity].
  simpl. rewrite app_nil_r. apply IH.
Qed.

Lemma rmatch_seq r1 r2 s c :
  rmatch (RSeq r1 r2) s c =
  flat_map (fun cs => rmatch r2 (snd cs) (fst cs)) (rmatch r1 s c).
Proof. reflexivity. Qed.

Lemma rmatch_seq_lit p r s c :
  rmatch (RSeq (RLit p) r) s c =
  match strip_prefix p s with Some s' => rmatch r s' c | None => [] end.
Proof.
  rewrite rmatch_seq, rmatch_lit.
  destruct (strip_prefix p s); simpl; [apply app_nil_r|reflexivity].
Qed.

Lemma rmatch_seq_char a r s c :
  rmatch (RSeq (RChar a) r) s c =
  match s with
  | d :: s' => if (a =? d)%N then rmatch r s' c else []
  | [] => []
  end.
Proof.
  rewrite rmatch_seq. destruct s as [|d s]; [reflexivity|]. simpl.
  destruct (a =? d)%N; simpl; [apply app_nil_r|reflexivity].
Qed.

Lemma rmatch_seq_star cls f r s c :
  is_class cls f ->
  (forall d s' c', f d = true -> rmatch r (d :: s') c' = []) ->
  rmatch (RSeq (RStar cls) r) s c = rmatch r (drop_while f s) c.
Proof.
  intros Hc Hr. rewrite rmatch_seq, (rmatch_star _ _ _ _ Hc).
  rewrite flat_map_star_list; [reflexivity|].
  intros d s' Hd. now apply Hr.
Qed.

Lemma rmatch_group_plus n cls f s c :
  is_class cls f ->
  rmatch (RGroup n (RPlus cls)) s c =
  match s with
  | d :: s' =>
      if f d
      then List.map (fun cs : captures * str =>
                       ((n, firstn (length s - length (snd cs)) s) :: fst cs,
                        snd cs))
                    (star_list f s' c)
      else []
  | [] => []
  end.
Proof.
  intros Hc. unfold RPlus.
  change (rmatch (RGroup n (RSeq cls (RStar cls))) s c)
    with (List.map (fun cs : captures * str =>
                      ((n, firstn (length s - length (snd cs)) s) :: fst cs,
                       snd cs))
                   (rmatch (RSeq cls (RStar cls)) s c)).
  rewrite rmatch_seq, Hc. destruct s as [|d s]; [reflexivity|].
  destruct (f d); [|reflexivity].
  cbn [flat_map fst snd]. rewrite app_nil_r, (rmatch_star _ _ _ _ Hc).
  reflexivity.
Qed.

Lemma rmatch_seq_group_plus n cls f r s c :
  is_class cls f ->
  (forall d s' c', f d = true -> rmatch r (d :: s') c' = []) ->
  rmatch (RSeq (RGroup n (RPlus cls)) r) s c =
  match s with
  | d :: _ =>
      if f d
      then rmatch r (drop_while f s) ((n, take_while f s) :: c)
      else []
  | [] => []
  end.
Proof.
  intros Hc Hr. rewrite rmatch_seq, (rmatch_group_plus _ _ _ _ _ Hc).
  destruct s as [|d s]; [reflexivity|].
  destruct (f d) eqn:E; [|reflexivity].
  rewrite flat_map_after_map, flat_map_star_list.
  - cbn [fst snd].
    rewrite <- (firstn_take_while f (d :: s)). simpl. now rewrite E.
  - intros d' s' Hd. cbn [fst snd]. now apply Hr.
Qed.

(** Characters of the pattern are not whitespace. *)
Lemma space_differs a d :
  is_space a = false -> is_space d = true -> (a =? d)%N = false.
Proof. intros Ha Hd. destruct (N.eqb_spec a d); [congruence|reflexivity]. Qed.

Lemma not_close_space d : is_space d = true -> not_close d = true.
Proof.
  intros Hd. unfold not_close.
  now rewrite (space_differs (ch "}") d eq_refl Hd).
Qed.

Lemma rmatch_closing s c :
  rmatch closing s c =
  match strip_prefix (text "})") (drop_while is_space s) with
  | Some rest => [(c, rest)]
  | None => []
  end.
Proof.
  unfold closing, ws. rewrite (rmatch_seq_star _ _ _ _ _ class_space).
  - rewrite rmatch_seq_char.
    destruct (drop_while is_space s) as [|d s']; [reflexivity|].
    cbn [strip_prefix text List.map list_ascii_of_string].
    change (N_of_ascii "}") with (ch "}").
    destruct (ch "}" =? d)%N; [|reflexivity].
    destruct s' as [|e s'']; [reflexivity|]. simpl.
    now destruct (_ =? e)%N.
  - intros d s' c' Hd. rewrite rmatch_seq_char.
    now rewrite (space_differs (ch "}") d eq_refl Hd).
Qed.

Lemma closing_inside q e :
  forallb not_close q = true ->
  strip_prefix (text "})") (drop_while is_space e) = None ->
  strip_prefix (text "})") (drop_while is_space (q ++ e)) = None.
Proof.
  intros Hq He. induction q as [|d q IH]; [exact He|].
  simpl in Hq. apply andb_prop in Hq as [Hd Hq]. simpl.
  destruct (is_space d); [now apply IH|].
  cbn [strip_prefix text List.map list_ascii_of_string].
  unfold not_close in Hd. change (ch "}") with 125%N in Hd.
  now destruct (125 =? d)%N.
Qed.

Lemma hd_value_group s c :
  hd_error (rmatch value_group s c) =
  match s with
  | d :: _ =>
      if not_close d
      then match strip_prefix (text "})") (drop_while not_close s) with
           | Some rest => Some ((3, take_while not_close s) :: c, rest)
           | None => None
           end
      else None
  | [] => None
  end.
Proof.
  unfold value_group.
  rewrite rmatch_seq, (rmatch_group_plus _ _ _ _ _ class_not_close).
  destruct s as [|d s]; [reflexivity|].
  destruct (not_close d) eqn:E; [|reflexivity].
  rewrite flat_map_after_map. cbn [fst snd].
  destruct (star_list_head not_close s c) as [l El].
  assert (Hstop : drop_while is_space (drop_while not_close s)
                  = drop_while not_close s).
  { apply drop_while_stop.
    destruct (drop_while not_close s) as [|e s'] eqn:Ee; [exact I|].
    apply drop_while_head in Ee.
    destruct (is_space e) eqn:Es; [|reflexivity].
    apply not_close_space in Es. congruence. }
  replace (drop_while not_close (d :: s)) with (drop_while not_close s)
    by (simpl; now rewrite E).
  rewrite El. cbn [flat_map fst snd]. rewrite rmatch_closing, Hstop.
  destruct (strip_prefix (text "})") (drop_while not_close s)) eqn:Es.
  - cbn [app hd_error].
    rewrite <- (firstn_take_while not_close (d :: s)). simpl. now rewrite E.
  - cbn [app]. rewrite flat_map_all_nil; [reflexivity|].
    intros [c' t] Hin.
    assert (Hin' : In (c', t) (star_list not_close s c))
      by (rewrite El; now right).
    apply star_list_in in Hin' as [-> [q [Hq ->]]].
    cbn [fst snd]. rewrite rmatch_closing, closing_inside; auto.
    now rewrite Hstop.
Qed.

(** [\s*([^}]+)\s*\}\)] *)
Lemma hd_value s c :
  hd_error (rmatch (ws ## value_group)%re s c) =
  match value_of s with
  | Some (g, rest) => Some ((3, g) :: c, rest)
  | None => None
  end.
Proof.
  unfold ws. rewrite rmatch_seq, (rmatch_star _ _ _ _ class_space).
  induction s as [|d s IH].
  - cbn [star_list flat_map fst snd]. rewrite app_nil_r, hd_value_group.
    reflexivity.
  - cbn [star_list]. destruct (is_space d) eqn:Ed.
    + rewrite flat_map_app, hd_error_app, IH. cbn [flat_map fst snd].
      rewrite app_nil_r, hd_value_group.
      pose proof (not_close_space _ Ed) as Hc. rewrite Hc.
      unfold value_of. cbn [take_while drop_while]. rewrite Hc.
      destruct (strip_prefix (text "})") (drop_while not_close s));
        [|reflexivity].
      cbn [bind drop_while]. rewrite Ed.
      destruct (drop_while is_space (take_while not_close s)); [|reflexivity].
      destruct (take_while not_close s) as [|e r]; [reflexivity|].
      reflexivity.
    + cbn [flat_map fst snd]. rewrite app_nil_r, hd_value_group.
      unfold value_of. cbn [take_while drop_while].
      destruct (not_close d) eqn:Ec.
      * destruct (strip_prefix (text "})") (drop_while not_close s));
          [|reflexivity].
        cbn [bind drop_while]. now rewrite Ed.
      * destruct (strip_prefix (text "})") (d :: s)); reflexivity.
Qed.

Lemma rmatch_seq_group_alt_lit n p1 p2 r s c :
  rmatch (RSeq (RGroup n (RAlt (RLit p1) (RLit p2))) r) s c =
  match strip_prefix p1 s with
  | Some s' => rmatch r s' ((n, p1) :: c)
  | None => []
  end ++
  match strip_prefix p2 s with
  | Some s' => rmatch r s' ((n, p2) :: c)
  | None => []
  end.
Proof.
  rewrite rmatch_seq.
  change (rmatch (RGroup n (RAlt (RLit p1) (RLit p2))) s c)
    with (List.map (fun cs : captures * str =>
                      ((n, firstn (length s - length (snd cs)) s) :: fst cs,
                       snd cs))
                   (rmatch (RLit p1) s c ++ rmatch (RLit p2) s c)).
  rewrite !rmatch_lit, map_app, flat_map_app.
  f_equal.
  - destruct (strip_prefix p1 s) as [s'|] eqn:E; [|reflexivity].
    cbn [List.map flat_map fst snd]. rewrite app_nil_r.
    now rewrite (strip_prefix_firstn _ _ _ E).
  - destruct (strip_prefix p2 s) as [s'|] eqn:E; [|reflexivity].
    cbn [List.map flat_map fst snd]. rewrite app_nil_r.
    now rewrite (strip_prefix_firstn _ _ _ E).
Qed.

Lemma pattern_arguments :
  pattern =
  (RLit (text "logger.") ##
   RGroup 1 (RAlt (RLit (text "warn")) (RLit (text "info"))) ##
   arguments)%re.
Proof. reflexivity. Qed.

Lemma rmatch_seq_one a r s c :
  rmatch (RSeq (RChar a) r) s c =
  match strip_prefix [a] s with Some s' => rmatch r s' c | None => [] end.
Proof.
  rewrite rmatch_seq_char. destruct s as [|d s]; [reflexivity|]. simpl.
  now destruct (a =? d)%N.
Qed.

Lemma strip_space_first a p d s :
  is_space a = false -> is_space d = true ->
  strip_prefix (a :: p) (d :: s) = None.
Proof. intros Ha Hd. simpl. now rewrite (space_differs _ _ Ha Hd). Qed.

Lemma hd_arguments lvl t2 :
  hd_error (rmatch arguments t2 [(1, lvl)]) =
  (t3 <- strip_prefix (text "(") t2 ;;
   ms <- message_of t3 ;;
   t7 <- strip_prefix (text "error,") (drop_while is_space (snd ms)) ;;
   t9 <- strip_prefix (text "{") (drop_while is_space t7) ;;
   t11 <- strip_prefix (text "component:") (drop_while is_space t9) ;;
   vr <- value_of t11 ;;
   Some ([(3, fst vr); (2, fst ms); (1, lvl)], snd vr)).
Proof.
  unfold arguments. rewrite rmatch_seq_one.
  change [ch "("] with (text "(").
  destruct (strip_prefix (text "(") t2) as [t3|]; [|reflexivity].
  cbn [bind].
  rewrite (rmatch_seq_group_plus _ _ _ _ _ _ class_not_comma).
  2:{ intros d s' c' Hd. rewrite rmatch_seq_char.
      unfold not_comma in Hd. now destruct (ch "," =? d)%N. }
  unfold message_of. destruct t3 as [|d1 t3']; [reflexivity|].
  destruct (not_comma d1); [|reflexivity].
  rewrite rmatch_seq_one. change [ch ","] with (text ",").
  set (m := take_while not_comma (d1 :: t3')).
  destruct (strip_prefix (text ",") (drop_while not_comma (d1 :: t3')))
    as [t5|]; [|reflexivity].
  cbn [bind fst snd].
  unfold ws at 1. rewrite (rmatch_seq_star _ _ _ _ _ class_space).
  2:{ intros d s' c' Hd. rewrite rmatch_seq_lit.
      cbn [text List.map list_ascii_of_string].
      now rewrite strip_space_first by (reflexivity || exact Hd). }
  rewrite rmatch_seq_lit.
  destruct (strip_prefix (text "error,") (drop_while is_space t5)) as [t7|];
    [|reflexivity].
  cbn [bind].
  unfold ws at 1. rewrite (rmatch_seq_star _ _ _ _ _ class_space).
  2:{ intros d s' c' Hd. rewrite rmatch_seq_one.
      cbn [text List.map list_ascii_of_string].
      now rewrite strip_space_first by (reflexivity || exact Hd). }
  rewrite rmatch_seq_one. change [ch "{"] with (text "{").
  destruct (strip_prefix (text "{") (drop_while is_space t7)) as [t9|];
    [|reflexivity].
  cbn [bind].
  unfold ws at 1. rewrite (rmatch_seq_star _ _ _ _ _ class_space).
  2:{ intros d s' c' Hd. rewrite rmatch_seq_lit.
      cbn [text List.map list_ascii_of_string].
      now rewrite strip_space_first by (reflexivity || exact Hd). }
  rewrite rmatch_seq_lit.
  destruct (strip_prefix (text "component:") (drop_while is_space t9))
    as [t11|]; [|reflexivity].
  cbn [bind]. rewrite hd_value.
  destruct (value_of t11) as [[g rest]|]; reflexivity.
Qed.

Lemma warn_not_info s s' :
  strip_prefix (text "warn") s = Some s' ->
  strip_prefix (text "info") s = None.
Proof.
  destruct s as [|d s]; [discriminate|].
  cbn [strip_prefix text List.map list_ascii_of_string].
  destruct (N.eqb_spec (N_of_ascii "w") d) as [<-|]; [|discriminate].
  reflexivity.
Qed.

(** The matcher, run on the script's pattern, finds what the stages say. *)
Theorem match_at_pattern t : match_at pattern t = match_direct t.
Proof.
  unfold match_at, match_direct. rewrite pattern_arguments, rmatch_seq_lit.
  destruct (strip_prefix (text "logger.") t) as [t1|]; [|reflexivity].
  cbn [bind]. rewrite rmatch_seq_group_alt_lit. unfold level_of.
  destruct (strip_prefix (text "warn") t1) as [t2|] eqn:Ew.
  - rewrite (warn_not_info _ _ Ew), app_nil_r. cbn [bind fst snd].
    apply hd_arguments.
  - cbn [app].
    destruct (strip_prefix (text "info") t1) as [t2|]; [|reflexivity].
    cbn [bind fst snd]. apply hd_arguments.
Qed.

End MatchFacts.
Import MatchFacts.

(** ** The stages and the call-site shape *)

Module ShapeFacts.

Lemma str_eqb_eq a b : str_eqb a b = true <-> a = b.
Proof.
  unfold str_eqb. destruct (list_eq_dec N.eq_dec a b); split;
    congruence.
Qed.

Lemma drop_while_nil_all f (s : str) :
  drop_while f s = [] -> forallb f s = true.
Proof.
  induction s as [|d s IH]; simpl; [reflexivity|].
  destruct (f d); [exact IH|discriminate].
Qed.

Lemma forallb_space_not_close w :
  forallb is_space w = true -> forallb not_close w = true.
Proof.
  induction w as [|d w IH]; simpl; [reflexivity|].
  intros H. apply andb_prop in H as [Hd Hw].
  now rewrite (not_close_space d Hd), IH.
Qed.

Lemma level_of_spec s lvl s' :
  level_of s = Some (lvl, s') <-> level_ok lvl = true /\ s = lvl ++ s'.
Proof.
  unfold level_of, level_ok. split.
  - destruct (strip_prefix (text "warn") s) as [t|] eqn:Ew.
    + intros [= <- <-]. apply strip_prefix_app in Ew. now split.
    + destruct (strip_prefix (text "info") s) as [t|] eqn:Ei;
        [|discriminate].
      intros [= <- <-]. apply strip_prefix_app in Ei. now split.
  - intros [Hl ->]. apply orb_prop in Hl as [Hl|Hl];
      apply str_eqb_eq in Hl; subst lvl.
    + now rewrite strip_prefix_same.
    + change (strip_prefix (text "warn") (text "info" ++ s')) with (@None str).
      now rewrite strip_prefix_same.
Qed.

Lemma message_of_spec s m s' :
  message_of s = Some (m, s') <->
  message_ok m = true /\ s = m ++ text "," ++ s'.
Proof.
  unfold message_of, message_ok. split.
  - destruct s as [|d s0]; [discriminate|].
    destruct (not_comma d) eqn:Ed; [|discriminate].
    destruct (strip_prefix (text ",") (drop_while not_comma (d :: s0)))
      as [t|] eqn:Ec; [|discriminate].
    cbn [bind]. intros [= <- <-]. apply strip_prefix_app in Ec.
    split.
    + pose proof (take_while_all not_comma (d :: s0)) as Ha.
      simpl in Ha |- *. now rewrite Ed in Ha |- *.
    + rewrite <- Ec. symmetry. exact (take_drop_while not_comma (d :: s0)).
  - intros [Hm ->]. destruct m as [|d m]; [discriminate|].
    pose proof Hm as Hm'. simpl in Hm'. apply andb_prop in Hm' as [Hd _].
    cbn [app]. rewrite Hd.
    change (d :: m ++ text "," ++ s') with ((d :: m) ++ text "," ++ s').
    rewrite drop_while_app_all, take_while_app_all by exact Hm.
    cbn [text List.map list_ascii_of_string app drop_while take_while].
    change (not_comma (N_of_ascii ",")) with false. cbn [strip_prefix].
    change (N_of_ascii "," =? N_of_ascii ",")%N with true. cbn [bind].
    now rewrite app_nil_r.
Qed.

Lemma value_of_spec s v rest :
  value_of s = Some (v, rest) <->
  exists w, forallb is_space w = true /\ value_ok v = true /\
            s = w ++ v ++ text "})" ++ rest.
Proof.
  unfold value_of. split.
  - destruct (strip_prefix (text "})") (drop_while not_close s))
      as [e|] eqn:Ee; [|discriminate].
    cbn [bind]. apply strip_prefix_app in Ee.
    pose proof (take_drop_while not_close s) as Hs.
    pose proof (take_while_all not_close s) as Ha.
    set (r := take_while not_close s) in *.
    destruct (drop_while is_space r) as [|d g] eqn:Eg.
    + destruct r as [|d0 r0] eqn:Er; [discriminate|]. rewrite <- Er in *.
      intros [= <- <-].
      assert (Hne : r <> []) by (rewrite Er; discriminate).
      pose proof (drop_while_nil_all _ _ Eg) as Hsp.
      rewrite (app_removelast_last 0%N Hne) in Hsp, Ha, Hs.
      rewrite forallb_app in Hsp, Ha.
      apply andb_prop in Hsp as [Hw Hl]. apply andb_prop in Ha as [_ Hc].
      exists (removelast r). split; [exact Hw|]. split.
      * simpl in Hc |- *. apply andb_prop in Hc as [Hc _].
        now rewrite Hc, orb_true_r.
      * rewrite app_assoc, <- Ee. symmetry. exact Hs.
    + intros [= <- <-].
      pose proof (take_drop_while is_space r) as Hr.
      pose proof (take_while_all is_space r) as Hw.
      rewrite Eg in Hr.
      exists (take_while is_space r). split; [exact Hw|]. split.
      * rewrite <- Hr, forallb_app in Ha. apply andb_prop in Ha as [_ Ha].
        unfold value_ok. rewrite Ha.
        now rewrite (drop_while_head _ _ _ _ Eg).
      * rewrite app_assoc, Hr, <- Ee. symmetry. exact Hs.
  - intros [w [Hw [Hv ->]]].
    destruct v as [|d v']; [discriminate|].
    simpl in Hv. apply andb_prop in Hv as [Hv Hsh].
    assert (Hall : forallb not_close (w ++ d :: v') = true).
    { rewrite forallb_app. rewrite (forallb_space_not_close _ Hw). exact Hv. }
    replace (w ++ (d :: v') ++ text "})" ++ rest)
      with ((w ++ d :: v') ++ text "})" ++ rest) by now rewrite <- app_assoc.
    rewrite drop_while_app_all, take_while_app_all by exact Hall.
    cbn [text List.map list_ascii_of_string app drop_while take_while].
    change (not_close (N_of_ascii "}")) with false. cbn [strip_prefix].
    change (N_of_ascii "}" =? N_of_ascii "}")%N with true.
    change (N_of_ascii ")" =? N_of_ascii ")")%N with true.
    cbn [bind]. rewrite app_nil_r, drop_while_app_all by exact Hw.
    cbn [drop_while]. destruct (is_space d) eqn:Ed.
    + simpl in Hsh. destruct v' as [|? ?]; [|discriminate].
      cbn [drop_while]. destruct (w ++ [d]) as [|a l] eqn:El.
      * destruct w; discriminate.
      * rewrite <- El, last_last. reflexivity.
    + reflexivity.
Qed.

Lemma strip_after_space a p s s' :
  is_space a = false ->
  strip_prefix (a :: p) (drop_while is_space s) = Some s' <->
  exists w, forallb is_space w = true /\ s = w ++ (a :: p) ++ s'.
Proof.
  intros Ha. split.
  - intros H. apply strip_prefix_app in H.
    exists (take_while is_space s). split; [apply take_while_all|].
    rewrite <- H. symmetry. apply take_drop_while.
  - intros [w [Hw ->]]. rewrite drop_while_app_all by exact Hw.
    rewrite drop_while_stop by exact Ha. apply strip_prefix_same.
Qed.

(** The stages find a match exactly on the texts of the matched shape. *)
Theorem match_direct_spec t c rest :
  match_direct t = Some (c, rest) <->
  exists x, site_ok x = true /\ c = site_captures x /\
            t = site_text x ++ rest.
Proof.
  unfold match_direct. split.
  - destruct (strip_prefix (text "logger.") t) as [t1|] eqn:E1;
      [|discriminate].
    cbn [bind]. destruct (level_of t1) as [[lvl t2]|] eqn:E2; [|discriminate].
    cbn [bind snd fst].
    destruct (strip_prefix (text "(") t2) as [t3|] eqn:E3; [|discriminate].
    cbn [bind]. destruct (message_of t3) as [[m t5]|] eqn:E4; [|discriminate].
    cbn [bind snd fst].
    destruct (strip_prefix (text "error,") (drop_while is_space t5))
      as [t7|] eqn:E5; [|discriminate].
    cbn [bind].
    destruct (strip_prefix (text "{") (drop_while is_space t7))
      as [t9|] eqn:E6; [|discriminate].
    cbn [bind].
    destruct (strip_prefix (text "component:") (drop_while is_space t9))
      as [t11|] eqn:E7; [|discriminate].
    cbn [bind]. destruct (value_of t11) as [[v r]|] eqn:E8; [|discriminate].
    cbn [bind snd fst]. intros [= <- <-].
    apply strip_prefix_app in E1, E3.
    apply level_of_spec in E2 as [Hl E2].
    apply message_of_spec in E4 as [Hm E4].
    apply (strip_after_space (ch "e") (text "rror,") _ _ eq_refl)
      in E5 as [w1 [Hw1 E5]].
    apply (strip_after_space (ch "{") [] _ _ eq_refl)
      in E6 as [w2 [Hw2 E6]].
    apply (strip_after_space (ch "c") (text "omponent:") _ _ eq_refl)
      in E7 as [w3 [Hw3 E7]].
    apply value_of_spec in E8 as [w4 [Hw4 [Hv E8]]].
    exists {| s_level := lvl; s_message := m; s_w1 := w1; s_w2 := w2;
              s_w3 := w3; s_w4 := w4; s_value := v |}.
    split; [|split; [reflexivity|]].
    + unfold site_ok. cbn [s_level s_message s_w1 s_w2 s_w3 s_w4 s_value].
      now rewrite Hl, Hm, Hw1, Hw2, Hw3, Hw4, Hv.
    + unfold site_text. cbn [s_level s_message s_w1 s_w2 s_w3 s_w4 s_value].
      subst. now rewrite <- !app_assoc.
  - intros [[lvl m w1 w2 w3 w4 v] [Hok [-> ->]]].
    unfold site_ok in Hok.
    cbn [s_level s_message s_w1 s_w2 s_w3 s_w4 s_value] in Hok.
    apply andb_prop in Hok as [Hok Hv]. apply andb_prop in Hok as [Hok Hw4].
    apply andb_prop in Hok as [Hok Hw3]. apply andb_prop in Hok as [Hok Hw2].
    apply andb_prop in Hok as [Hok Hw1]. apply andb_prop in Hok as [Hl Hm].
    unfold site_text, site_captures.
    cbn [s_level s_message s_w1 s_w2 s_w3 s_w4 s_value].
    rewrite <- !app_assoc. rewrite strip_prefix_same. cbn [bind].
    rewrite (proj2 (level_of_spec _ lvl _) (conj Hl eq_refl)).
    cbn [bind fst snd]. rewrite strip_prefix_same. cbn [bind].
    rewrite (proj2 (message_of_spec _ m _) (conj Hm eq_refl)).
    cbn [bind fst snd].
    rewrite (proj2 (strip_after_space (ch "e") (text "rror,") _ _ eq_refl)
               (ex_intro _ w1 (conj Hw1 eq_refl))).
    cbn [bind].
    rewrite (proj2 (strip_after_space (ch "{") [] _ _ eq_refl)
               (ex_intro _ w2 (conj Hw2 eq_refl))).
    cbn [bind].
    rewrite (proj2 (strip_after_space (ch "c") (text "omponent:") _ _ eq_refl)
               (ex_intro _ w3 (conj Hw3 eq_refl))).
    cbn [bind].
    rewrite (proj2 (value_of_spec _ v _)
               (ex_intro _ w4 (conj Hw4 (conj Hv eq_refl)))).
    reflexivity.
Qed.

End ShapeFacts.
Import ShapeFacts.

(** ** The scan of [re.sub] *)

Module ScanFacts.

Section AnyPattern.

Variable r : regex.
Variable t : template.

Lemma scan_from_covered u v :
  scan_from r (length u) (u ++ v) = scan_from r 0 v.
Proof. induction u as [|d u IH]; [reflexivity|exact IH]. Qed.

Lemma scan_hit m rest c :
  m <> [] -> match_at r (m ++ rest) = Some (c, rest) ->
  scan r (m ++ rest) = Hit m c :: scan r rest.
Proof.
  intros Hm Hat. destruct m as [|d m]; [congruence|].
  unfold scan. cbn [app scan_from]. cbn [app] in Hat. rewrite Hat.
  replace (length (d :: m ++ rest) - length rest) with (S (length m))
    by (cbn [length]; rewrite length_app; lia).
  cbv zeta. f_equal.
  - change (d :: m ++ rest) with ((d :: m) ++ rest).
    change (S (length m)) with (length (d :: m)).
    replace (length (d :: m)) with (length (d :: m) + 0) by lia.
    rewrite firstn_app_2. simpl. now rewrite app_nil_r.
  - apply scan_from_covered.
Qed.

Lemma scan_keep d s :
  match_at r (d :: s) = None -> scan r (d :: s) = Keep d :: scan r s.
Proof. intros Hat. unfold scan. cbn [scan_from]. now rewrite Hat. Qed.

Lemma scan_end : match_at r [] = None -> scan r [] = [].
Proof. intros Hat. unfold scan. cbn [scan_from]. now rewrite Hat. Qed.

Lemma sub_hit m rest c :
  m <> [] -> match_at r (m ++ rest) = Some (c, rest) ->
  sub r t (m ++ rest) = expand t c ++ sub r t rest.
Proof. intros Hm Hat. unfold sub. now rewrite (scan_hit _ _ _ Hm Hat). Qed.

Lemma sub_keep d s :
  match_at r (d :: s) = None -> sub r t (d :: s) = d :: sub r t s.
Proof. intros Hat. unfold sub. now rewrite (scan_keep _ _ Hat). Qed.

Lemma sub_end : match_at r [] = None -> sub r t [] = [].
Proof. intros Hat. unfold sub. now rewrite (scan_end Hat). Qed.

End AnyPattern.

(** The text of a call site is never empty. *)
Lemma site_text_cons x : exists m, site_text x = ch "l" :: m.
Proof. unfold site_text. eexists. reflexivity. Qed.

Lemma site_text_nonempty x : site_text x <> [].
Proof. destruct (site_text_cons x) as [m ->]. discriminate. Qed.

Lemma match_site x rest :
  site_ok x = true ->
  match_at pattern (site_text x ++ rest) = Some (site_captures x, rest).
Proof.
  intros Hx. rewrite match_at_pattern. apply match_direct_spec.
  exists x. auto.
Qed.

Lemma expand_site x : expand replacement (site_captures x) = site_rewritten x.
Proof.
  unfold expand, replacement, site_captures, site_rewritten, rewritten.
  cbn [flat_map expand_item group Nat.eqb]. now rewrite app_nil_r.
Qed.

Lemma scan_site x rest :
  site_ok x = true ->
  scan pattern (site_text x ++ rest) =
  Hit (site_text x) (site_captures x) :: scan pattern rest.
Proof.
  intros Hx. apply scan_hit; [apply site_text_nonempty|now apply match_site].
Qed.

Lemma scan_other d s :
  match_direct (d :: s) = None ->
  scan pattern (d :: s) = Keep d :: scan pattern s.
Proof. intros H. apply scan_keep. now rewrite match_at_pattern. Qed.

Lemma scan_empty : scan pattern [] = [].
Proof. reflexivity. Qed.

Lemma content_fixed_site x rest :
  site_ok x = true ->
  content_fixed (site_text x ++ rest) = site_rewritten x ++ content_fixed rest.
Proof.
  intros Hx. unfold content_fixed, sub. rewrite (scan_site _ _ Hx).
  cbn [flat_map render]. now rewrite expand_site.
Qed.

Lemma content_fixed_other d s :
  match_direct (d :: s) = None ->
  content_fixed (d :: s) = d :: content_fixed s.
Proof.
  intros H. unfold content_fixed, sub. now rewrite (scan_other _ _ H).
Qed.

Lemma content_fixed_empty : content_fixed [] = [].
Proof. reflexivity. Qed.

(** Induction along the scan: a position either starts no match and is
    passed over, or starts a call site, after which the scan resumes. *)
Lemma scan_induction (P : str -> Prop) :
  P [] ->
  (forall d s, match_direct (d :: s) = None -> P s -> P (d :: s)) ->
  (forall x rest, site_ok x = true -> P rest -> P (site_text x ++ rest)) ->
  forall s, P s.
Proof.
  intros Hnil Hkeep Hhit s.
  remember (length s) as n eqn:En. revert s En.
  induction n as [n IH] using lt_wf_ind. intros s En.
  destruct s as [|d s]; [exact Hnil|].
  destruct (match_direct (d :: s)) as [[c rest]|] eqn:Em.
  - apply match_direct_spec in Em as [x [Hx [_ Et]]].
    rewrite Et. apply Hhit; [exact Hx|].
    apply (IH (length rest)); [|reflexivity].
    rewrite En, Et, length_app.
    destruct (site_text_cons x) as [m ->]. simpl. lia.
  - apply Hkeep; [exact Em|]. apply (IH (length s)); [|reflexivity].
    rewrite En. simpl. lia.
Qed.

End ScanFacts.
Import ScanFacts.

(** ** The pass *)

Module PassFacts.

Lemma starts_with_site_match t :
  starts_with_site t <-> match_direct t <> None.
Proof.
  split.
  - intros [x [rest [Hx ->]]] H.
    assert (E : match_direct (site_text x ++ rest)
                = Some (site_captures x, rest))
      by (apply match_direct_spec; exists x; auto).
    congruence.
  - destruct (match_direct t) as [[c rest]|] eqn:E; [|congruence].
    intros _. apply match_direct_spec in E as [x [Hx [_ ->]]].
    now exists x, rest.
Qed.

Lemma has_match_eq s :
  has_match s =
  match match_direct s with
  | Some _ => true
  | None => match s with [] => false | _ :: s' => has_match s' end
  end.
Proof. destruct s; reflexivity. Qed.

Lemma contains_site_has_match s :
  contains_site s <-> has_match s = true.
Proof.
  split.
  - intros [before [t [-> Ht]]]. apply starts_with_site_match in Ht.
    induction before as [|d before IH].
    + rewrite has_match_eq. cbn [app].
      destruct (match_direct t); congruence.
    + rewrite has_match_eq. cbn [app]. rewrite IH.
      now destruct (match_direct (d :: before ++ t)).
  - induction s as [|d s IH]; rewrite has_match_eq.
    + destruct (match_direct []) eqn:E; [|discriminate].
      intros _. exists [], []. split; [reflexivity|].
      apply starts_with_site_match. congruence.
    + destruct (match_direct (d :: s)) eqn:E.
      * intros _. exists [], (d :: s). split; [reflexivity|].
        apply starts_with_site_match. congruence.
      * intros H. destruct (IH H) as [before [t [-> Ht]]].
        now exists (d :: before), t.
Qed.

Lemma no_site_tail d s : ~ contains_site (d :: s) -> ~ contains_site s.
Proof.
  intros H [before [t [-> Ht]]]. apply H. now exists (d :: before), t.
Qed.

(** Without a call site in it a text is left as it is. *)
Lemma content_fixed_no_site s : ~ contains_site s -> content_fixed s = s.
Proof.
  induction s as [| d s Hno IH | x rest Hx IH] using scan_induction.
  - reflexivity.
  - intros H. rewrite (content_fixed_other _ _ Hno).
    now rewrite (IH (no_site_tail _ _ H)).
  - intros H. exfalso. apply H. exists [], (site_text x ++ rest).
    split; [reflexivity|]. now exists x, rest.
Qed.

Lemma content_fixed_rewrites s : rewrites s (content_fixed s).
Proof.
  induction s as [| d s Hno IH | x rest Hx IH] using scan_induction.
  - constructor.
  - rewrite (content_fixed_other _ _ Hno). constructor; [|exact IH].
    intros H. now apply starts_with_site_match in H.
  - rewrite (content_fixed_site _ _ Hx). now constructor.
Qed.

(** The pass determines its result. *)
Lemma rewrites_unique s out : rewrites s out -> out = content_fixed s.
Proof.
  induction 1 as [| d s out Hno _ IH | x rest out Hx _ IH].
  - reflexivity.
  - rewrite content_fixed_other, IH; [reflexivity|].
    destruct (match_direct (d :: s)) eqn:E; [|reflexivity].
    exfalso. apply Hno. apply starts_with_site_match. congruence.
  - now rewrite (content_fixed_site _ _ Hx), IH.
Qed.

(** Every match of the scan is a call site of the shape. *)
Lemma scan_hits_sites s m c :
  In (Hit m c) (scan pattern s) ->
  exists x, site_ok x = true /\ m = site_text x /\ c = site_captures x.
Proof.
  induction s as [| d s Hno IH | x rest Hx IH] using scan_induction.
  - intros [].
  - rewrite (scan_other _ _ Hno). intros [H|H]; [discriminate|auto].
  - rewrite (scan_site _ _ Hx). intros [[= <- <-]|H]; [|auto].
    now exists x.
Qed.

(** The pieces of the scan make up the input. *)
Lemma scan_covers_input s : flat_map source (scan pattern s) = s.
Proof.
  induction s as [| d s Hno IH | x rest Hx IH] using scan_induction.
  - reflexivity.
  - rewrite (scan_other _ _ Hno). cbn [flat_map source app]. now rewrite IH.
  - rewrite (scan_site _ _ Hx). cbn [flat_map source]. now rewrite IH.
Qed.

(** A match of the pattern is never empty. *)
Lemma pattern_match_consumes s c rest :
  match_at pattern s = Some (c, rest) -> length rest < length s.
Proof.
  rewrite match_at_pattern. intros H.
  apply match_direct_spec in H as [x [_ [_ ->]]].
  destruct (site_text_cons x) as [m ->]. rewrite length_app. simpl. lia.
Qed.

Lemma split_at_first (a : N) (u v u' v' : list N) :
  ~ In a u -> ~ In a u' -> u ++ a :: v = u' ++ a :: v' -> u = u'.
Proof.
  revert u'; induction u as [|d u IH]; intros [|d' u'] Hu Hu' E.
  - reflexivity.
  - injection E as -> _. exfalso. apply Hu'. now left.
  - injection E as -> _. exfalso. apply Hu. now left.
  - injection E as -> E. f_equal. apply (IH u'); auto.
    + intros H. apply Hu. now right.
    + intros H. apply Hu'. now right.
Qed.

(** A call whose level name is not one of the two never starts a match. *)
Lemma other_level_no_match lvl rest :
  level_ok lvl = false ->
  ~ In (ch "(") lvl ->
  match_at pattern (text "logger." ++ lvl ++ text "(" ++ rest) = None.
Proof.
  intros Hl Hp. rewrite match_at_pattern. unfold match_direct.
  rewrite strip_prefix_same. cbn [bind].
  destruct (level_of (lvl ++ text "(" ++ rest)) as [[l t2]|] eqn:E;
    [|reflexivity].
  cbn [bind fst snd].
  destruct (strip_prefix (text "(") t2) as [t3|] eqn:E3; [|reflexivity].
  exfalso. apply level_of_spec in E as [Hok E].
  apply strip_prefix_app in E3. subst t2.
  assert (lvl = l); [|congruence].
  apply (split_at_first (ch "(") lvl rest l t3 Hp); [|exact E].
  unfold level_ok in Hok. apply orb_prop in Hok as [H|H];
    apply str_eqb_eq in H; subst l; vm_compute; intuition discriminate.
Qed.

(** A match starts with the letter l. *)
Lemma match_direct_first d s :
  (d =? ch "l")%N = false -> match_direct (d :: s) = None.
Proof.
  intros Hd. unfold match_direct.
  cbn [strip_prefix text List.map list_ascii_of_string].
  change (N_of_ascii "l") with (ch "l").
  rewrite N.eqb_sym, Hd. reflexivity.
Qed.

Lemma content_fixed_before before s :
  forallb (fun d => negb (d =? ch "l")%N) before = true ->
  content_fixed (before ++ s) = before ++ content_fixed s.
Proof.
  induction before as [|d before IH]; [reflexivity|].
  cbn [forallb app]. intros H. apply andb_prop in H as [Hd Hb].
  rewrite content_fixed_other, IH by
    (try apply match_direct_first; try apply negb_true_iff; assumption).
  reflexivity.
Qed.

End PassFacts.
Import PassFacts.

(** ** The machine *)

Module MachineFacts.

Lemma accepts_nil s : accepts [] s = true.
Proof.
  unfold accepts. replace (run [] s) with (Some (@nil item)); [reflexivity|].
  induction s as [|d s IH]; [reflexivity|exact IH].
Qed.

Lemma accepts_cons q d s :
  accepts q (d :: s) =
  match step q d with Some q' => accepts q' s | None => false end.
Proof. unfold accepts. simpl. now destruct (step q d). Qed.

Lemma run_app q a b :
  run q (a ++ b) =
  match run q a with Some q' => run q' b | None => None end.
Proof.
  revert q; induction a as [|d a IH]; intros q; [reflexivity|].
  simpl. destruct (step q d); [apply IH|reflexivity].
Qed.

Lemma accepts_app q a b :
  accepts q (a ++ b) =
  match run q a with Some q' => accepts q' b | None => false end.
Proof. unfold accepts. rewrite run_app. now destruct (run q a). Qed.

Lemma accepts_chars p q s :
  accepts (chars p ++ q) s =
  match strip_prefix p s with Some s' => accepts q s' | None => false end.
Proof.
  revert s; induction p as [|a p IH]; intros s; [reflexivity|].
  destruct s as [|d s]; [reflexivity|].
  rewrite accepts_cons. simpl. destruct (a =? d)%N; [apply IH|reflexivity].
Qed.

Lemma accepts_one k q s :
  accepts (One k :: q) s =
  match s with
  | d :: s' => in_cls k d && accepts q s'
  | [] => false
  end.
Proof.
  destruct s as [|d s]; [reflexivity|]. rewrite accepts_cons. simpl.
  now destruct (in_cls k d).
Qed.

Lemma accepts_many k a q s :
  in_cls k a = false ->
  accepts (Many k :: Ch a :: q) s =
  accepts (Ch a :: q) (drop_while (in_cls k) s).
Proof.
  intros Ha. induction s as [|d s IH]; [reflexivity|].
  rewrite accepts_cons. cbn [step drop_while].
  destruct (in_cls k d) eqn:Ed; [exact IH|].
  rewrite accepts_cons. reflexivity.
Qed.

(** A step leaves a suffix of the state. *)
Lemma step_skipn q d q' : step q d = Some q' -> exists j, q' = skipn j q.
Proof.
  revert q'; induction q as [|i q IH]; intros q'; simpl.
  - intros [= <-]. now exists 0.
  - destruct i as [a|k|k].
    + destruct (a =? d)%N; [|discriminate]. intros [= <-]. now exists 1.
    + destruct (in_cls k d); [|discriminate]. intros [= <-]. now exists 1.
    + destruct (in_cls k d).
      * intros [= <-]. now exists 0.
      * intros H. destruct (IH _ H) as [j ->]. now exists (S j).
Qed.

Lemma run_skipn q s q' : run q s = Some q' -> exists j, q' = skipn j q.
Proof.
  revert q; induction s as [|d s IH]; intros q; simpl.
  - intros [= <-]. now exists 0.
  - destruct (step q d) as [q1|] eqn:E; [|discriminate].
    intros H. destruct (IH _ H) as [j ->].
    destruct (step_skipn _ _ _ E) as [i ->].
    exists (i + j). now rewrite skipn_skipn, Nat.add_comm.
Qed.

Lemma skipn_in_suffixes q j : In (skipn j q) (suffixes q).
Proof.
  unfold suffixes. apply in_map_iff.
  destruct (Nat.le_gt_cases j (length q)) as [H|H].
  - exists j. split; [reflexivity|]. apply in_seq. lia.
  - exists (length q). split.
    + rewrite !skipn_all2; [reflexivity| |]; lia.
    + apply in_seq. lia.
Qed.

Lemma step_pending a q d q' :
  (a =? d)%N = false -> step q d = Some q' -> pending a q' = pending a q.
Proof.
  intros Ha. revert q'; induction q as [|i q IH]; intros q'; simpl.
  - now intros [= <-].
  - destruct i as [b|k|k].
    + destruct (N.eqb_spec b d) as [->|]; [|discriminate].
      intros [= <-]. unfold pending. simpl. now rewrite Ha.
    + destruct (in_cls k d); [|discriminate]. now intros [= <-].
    + destruct (in_cls k d); [now intros [= <-]|].
      intros H. now rewrite (IH _ H).
Qed.

Lemma run_pending a q s q' :
  forallb (fun d => negb (a =? d)%N) s = true ->
  run q s = Some q' -> pending a q' = pending a q.
Proof.
  revert q; induction s as [|d s IH]; intros q; simpl.
  - now intros _ [= <-].
  - intros H. apply andb_prop in H as [Hd Hs].
    destruct (step q d) as [q1|] eqn:E; [|discriminate].
    intros Hr. rewrite (IH _ Hs Hr).
    apply (step_pending _ _ _ _ (proj1 (negb_true_iff _) Hd) E).
Qed.

Lemma value_machine s :
  accepts (One NotClose :: Many NotClose :: chars (text "})")) s =
  found (value_of s).
Proof.
  cbn [app chars text List.map list_ascii_of_string].
  rewrite accepts_one. unfold value_of.
  destruct s as [|d s]; [reflexivity|].
  rewrite accepts_many by reflexivity.
  rewrite (accepts_chars (text "})") [] _).
  change (in_cls NotClose) with not_close.
  cbn [take_while drop_while]. destruct (not_close d) eqn:Ed.
  - destruct (strip_prefix (text "})") (drop_while not_close s));
      [|reflexivity].
    rewrite accepts_nil. cbn [bind andb].
    destruct (drop_while is_space (d :: take_while not_close s));
      reflexivity.
  - cbn [andb]. destruct (strip_prefix (text "})") (d :: s)); reflexivity.
Qed.

Lemma items_after_level lvl :
  items lvl = chars (text "logger.") ++ chars lvl ++ after_level.
Proof. reflexivity. Qed.

Lemma accepts_many_lit k a p q s :
  in_cls k a = false ->
  accepts (Many k :: chars (a :: p) ++ q) s =
  match strip_prefix (a :: p) (drop_while (in_cls k) s) with
  | Some s' => accepts q s'
  | None => false
  end.
Proof.
  intros Ha. change (chars (a :: p) ++ q) with (Ch a :: (chars p ++ q)).
  rewrite (accepts_many _ _ _ _ Ha). exact (accepts_chars (a :: p) q _).
Qed.

Lemma after_level_direct lvl t2 :
  accepts after_level t2 =
  found (t3 <- strip_prefix (text "(") t2 ;;
         ms <- message_of t3 ;;
         t7 <- strip_prefix (text "error,") (drop_while is_space (snd ms)) ;;
         t9 <- strip_prefix (text "{") (drop_while is_space t7) ;;
         t11 <- strip_prefix (text "component:") (drop_while is_space t9) ;;
         vr <- value_of t11 ;;
         Some ([(3, fst vr); (2, fst ms); (1, lvl)], snd vr)).
Proof.
  unfold after_level. rewrite accepts_chars.
  destruct (strip_prefix (text "(") t2) as [t3|]; [|reflexivity].
  cbn [bind]. cbn [app]. rewrite accepts_one. unfold message_of.
  destruct t3 as [|d t3]; [reflexivity|].
  change (in_cls NotComma) with not_comma.
  cbn [drop_while]. destruct (not_comma d); [|reflexivity].
  cbn [andb].
  change (text ",") with [ch ","].
  rewrite (accepts_many_lit NotComma (ch ",") [] _ _ eq_refl).
  change (in_cls NotComma) with not_comma.
  destruct (strip_prefix [ch ","] (drop_while not_comma t3)) as [t5|];
    [|reflexivity].
  cbn [bind fst snd app].
  change (text "error,") with (ch "e" :: text "rror,").
  rewrite (accepts_many_lit Space (ch "e") (text "rror,") _ _ eq_refl).
  change (in_cls Space) with is_space.
  destruct (strip_prefix (ch "e" :: text "rror,") (drop_while is_space t5))
    as [t7|]; [|reflexivity].
  cbn [bind app].
  change (text "{") with [ch "{"].
  rewrite (accepts_many_lit Space (ch "{") [] _ _ eq_refl).
  change (in_cls Space) with is_space.
  destruct (strip_prefix [ch "{"] (drop_while is_space t7)) as [t9|];
    [|reflexivity].
  cbn [bind app].
  change (text "component:") with (ch "c" :: text "omponent:").
  rewrite (accepts_many_lit Space (ch "c") (text "omponent:") _ _ eq_refl).
  change (in_cls Space) with is_space.
  destruct (strip_prefix (ch "c" :: text "omponent:")
              (drop_while is_space t9)) as [t11|]; [|reflexivity].
  cbn [bind]. rewrite (value_machine t11).
  destruct (value_of t11); reflexivity.
Qed.

(** The machine accepts exactly where the stages find a match. *)
Theorem matches_direct t : matches t = found (match_direct t).
Proof.
  unfold matches, match_direct. rewrite !items_after_level, !accepts_chars.
  destruct (strip_prefix (text "logger.") t) as [t1|]; [|reflexivity].
  cbn [bind]. rewrite !accepts_chars. unfold level_of.
  destruct (strip_prefix (text "warn") t1) as [t2|] eqn:Ew.
  - rewrite (warn_not_info _ _ Ew), orb_false_r. cbn [bind fst snd].
    apply after_level_direct.
  - cbn [orb].
    destruct (strip_prefix (text "info") t1) as [t2|]; [|reflexivity].
    cbn [bind fst snd]. apply after_level_direct.
Qed.

Lemma no_match_machine t :
  match_direct t = None <->
  accepts (items (text "warn")) t = false /\
  accepts (items (text "info")) t = false.
Proof.
  pose proof (matches_direct t) as H. unfold matches in H.
  destruct (match_direct t); simpl in H.
  - split; [discriminate|]. intros [H1 H2]. rewrite H1, H2 in H.
    discriminate.
  - apply orb_false_iff in H. tauto.
Qed.

End MachineFacts.
Import MachineFacts.

(** ** A second application *)

Module TwiceFacts.

(** Two spellings of one text. *)
Ltac same_text :=
  unfold ch;
  repeat first
    [ rewrite <- app_assoc
    | progress cbn [app text List.map list_ascii_of_string] ];
  reflexivity.

Lemma dies_after q0 a tail u z :
  dies q0 a (pending a q0) tail = true ->
  forallb (fun d => negb (a =? d)%N) u = true ->
  accepts q0 (u ++ tail ++ z) = false.
Proof.
  intros Hd Hu. rewrite accepts_app.
  destruct (run q0 u) as [q|] eqn:E; [|reflexivity].
  pose proof (run_pending _ _ _ _ Hu E) as Hp.
  destruct (run_skipn _ _ _ E) as [j ->].
  unfold dies in Hd. rewrite forallb_forall in Hd.
  specialize (Hd _ (skipn_in_suffixes q0 j)).
  rewrite Hp, Nat.eqb_refl in Hd. simpl in Hd.
  rewrite accepts_app.
  destruct (run (skipn j q0) tail); [discriminate|reflexivity].
Qed.

(** After a first argument, [, {] cannot go on a match: [error] is
    missing. *)
Lemma no_match_comma_brace u z :
  forallb not_comma u = true ->
  match_direct (u ++ text ", {" ++ z) = None.
Proof.
  intros Hu. apply no_match_machine. split; apply (dies_after _ (ch ","));
    solve [vm_compute; reflexivity | exact Hu].
Qed.

(** Before any opening brace, [, error })] cannot go on a match. *)
Lemma no_match_error_close u z :
  forallb no_open u = true ->
  match_direct (u ++ text ", error })" ++ z) = None.
Proof.
  intros Hu. apply no_match_machine. split; apply (dies_after _ (ch "{"));
    solve [vm_compute; reflexivity | exact Hu].
Qed.

Lemma has_match_cons d s :
  has_match (d :: s) = found (match_direct (d :: s)) || has_match s.
Proof.
  rewrite has_match_eq. now destruct (match_direct (d :: s)).
Qed.

Lemma has_match_skip a b :
  forallb (fun d => negb (d =? ch "l")%N) a = true ->
  has_match (a ++ b) = has_match b.
Proof.
  induction a as [|d a IH]; [reflexivity|].
  cbn [forallb app]. intros H. apply andb_prop in H as [Hd Ha].
  rewrite has_match_cons, (IH Ha).
  rewrite match_direct_first; [reflexivity|].
  now apply negb_true_iff.
Qed.

Lemma has_match_over (f : char -> bool) a b :
  (forall a', forallb f a' = true -> match_direct (a' ++ b) = None) ->
  forallb f a = true ->
  has_match (a ++ b) = has_match b.
Proof.
  intros Hf. induction a as [|d a IH]; [reflexivity|].
  intros Ha. rewrite <- app_comm_cons, has_match_cons.
  rewrite app_comm_cons, (Hf _ Ha). cbn [found orb].
  cbn [forallb] in Ha. apply andb_prop in Ha as [_ Ha]. now apply IH.
Qed.

Lemma level_cases lvl :
  level_ok lvl = true -> lvl = text "warn" \/ lvl = text "info".
Proof.
  unfold level_ok. intros H. apply orb_prop in H as [H|H];
    apply str_eqb_eq in H; auto.
Qed.

Lemma message_no_comma m : message_ok m = true -> forallb not_comma m = true.
Proof. destruct m; [discriminate|now intros H]. Qed.

Lemma value_no_close v : value_ok v = true -> forallb not_close v = true.
Proof.
  destruct v as [|d v]; [discriminate|]. unfold value_ok.
  intros H. now apply andb_prop in H as [H _].
Qed.

(** No match starts inside the rewritten form of a call site whose value
    has no opening brace. *)
Lemma rewritten_site_quiet x y :
  site_ok x = true ->
  forallb no_open (s_value x) = true ->
  has_match (site_rewritten x ++ y) = has_match y.
Proof.
  destruct x as [lvl m w1 w2 w3 w4 v]. unfold site_ok, site_rewritten.
  cbn [s_level s_message s_w1 s_w2 s_w3 s_w4 s_value]. intros Hok Hv.
  apply andb_prop in Hok as [Hok _].
  do 4 (apply andb_prop in Hok as [Hok _]).
  apply andb_prop in Hok as [Hl Hm]. apply message_no_comma in Hm.
  unfold rewritten.
  assert (Hhead : forallb not_comma (text "logger." ++ lvl ++ text "(" ++ m)
                  = true).
  { rewrite !forallb_app, Hm.
    destruct (level_cases _ Hl) as [->| ->]; reflexivity. }
  replace ((text "logger." ++ lvl ++ text "(" ++ m ++ text ", { component: "
            ++ v ++ text ", error })") ++ y)
    with (ch "l" :: (text "ogger." ++ lvl ++ text "(") ++ m ++
          text ", { component: " ++ v ++ text ", error })" ++ y)
    by same_text.
  rewrite has_match_cons.
  replace (ch "l" :: (text "ogger." ++ lvl ++ text "(") ++ m ++
           text ", { component: " ++ v ++ text ", error })" ++ y)
    with ((text "logger." ++ lvl ++ text "(" ++ m) ++ text ", {" ++
          text " component: " ++ v ++ text ", error })" ++ y)
    by same_text.
  rewrite (no_match_comma_brace _ _ Hhead). cbn [found orb].
  rewrite has_match_skip
    by (destruct (level_cases _ Hl) as [->| ->]; reflexivity).
  rewrite (has_match_over not_comma m); [|
    intros a' Ha'; exact (no_match_comma_brace a' _ Ha') | exact Hm].
  rewrite has_match_skip by reflexivity.
  rewrite (has_match_over no_open v); [|
    intros a' Ha'; exact (no_match_error_close a' _ Ha') | exact Hv].
  now rewrite has_match_skip by reflexivity.
Qed.

Lemma in_message_dead q u z :
  forallb not_comma u = true ->
  accepts (in_message q) (u ++ text "," ++ text " {" ++ z) = false.
Proof.
  intros Hu. unfold in_message. rewrite accepts_many by reflexivity.
  change (in_cls NotComma) with not_comma.
  rewrite (drop_while_app_all _ _ _ Hu).
  reflexivity.
Qed.

Lemma in_value_cross u z1 z2 :
  accepts [Ch (ch "}"); Ch (ch ")")] (drop_while not_close z2) = true ->
  accepts in_value (u ++ text "," ++ z1) = true ->
  accepts in_value (u ++ text "," ++ z2) = true.
Proof.
  intros H2. unfold in_value. induction u as [|d u IH].
  - intros _. rewrite accepts_many by reflexivity. exact H2.
  - cbn [app]. rewrite !accepts_cons. cbn [step].
    destruct (in_cls NotClose d); [exact IH|].
    destruct (ch "}" =? d)%N; [|discriminate].
    destruct u as [|e u]; [discriminate|].
    cbn [app]. rewrite !accepts_cons. cbn [step].
    destruct (ch ")" =? e)%N; [|discriminate].
    now rewrite !accepts_nil.
Qed.

(** A state reached after at least one character reads the common start
    [logger.<level>(<message>,] of a call site and of its rewritten form;
    if it then accepts the rest of the rewritten form, it accepts the rest
    of the call site. *)
Lemma cross_state lvl0 q u z1 z2 :
  lvl0 = text "warn" \/ lvl0 = text "info" ->
  In q (suffixes (tl (items lvl0))) ->
  forallb not_comma u = true ->
  accepts [Ch (ch "}"); Ch (ch ")")] (drop_while not_close z2) = true ->
  accepts q (ch "l" :: u ++ text "," ++ text " {" ++ z1) = true ->
  accepts q (ch "l" :: u ++ text "," ++ z2) = true.
Proof.
  intros Hl Hin Hu Hz.
  destruct Hl as [-> | ->]; vm_compute in Hin;
    repeat (destruct Hin as [<- | Hin]); try contradiction;
    rewrite !accepts_cons;
    match goal with
    | |- context [step ?q0 ?d] =>
        let r := eval vm_compute in (step q0 d) in
        change (step q0 d) with r
    end;
    cbv iota beta;
    first
      [ discriminate
      | intros H; exfalso;
        exact (Bool.diff_false_true
                 (eq_trans (eq_sym (in_message_dead _ u z1 Hu)) H))
      | exact (in_value_cross u _ z2 Hz)
      | intros _; apply accepts_nil ].
Qed.

Lemma close_accepts y :
  accepts [Ch (ch "}"); Ch (ch ")")] (text "})" ++ y) = true.
Proof.
  change (accepts (chars (text "})") ++ []) (text "})" ++ y) = true).
  rewrite accepts_chars, strip_prefix_same. apply accepts_nil.
Qed.

Lemma run_first lvl0 d pre q :
  run (items lvl0) (d :: pre) = Some q ->
  In q (suffixes (tl (items lvl0))).
Proof.
  cbn [run]. rewrite items_after_level.
  cbn [chars text List.map list_ascii_of_string app step tl].
  destruct (N_of_ascii "l" =? d)%N; [|discriminate].
  intros H. destruct (run_skipn _ _ _ H) as [j ->].
  apply skipn_in_suffixes.
Qed.

Lemma cross_site_level lvl0 x pre y1 y2 :
  lvl0 = text "warn" \/ lvl0 = text "info" ->
  site_ok x = true -> pre <> [] ->
  accepts (items lvl0) (pre ++ site_rewritten x ++ y1) = true ->
  accepts (items lvl0) (pre ++ site_text x ++ y2) = true.
Proof.
  intros Hl0 Hok Hpre. rewrite !accepts_app.
  destruct (run (items lvl0) pre) as [q|] eqn:E; [|discriminate].
  destruct pre as [|d pre]; [congruence|].
  pose proof (run_first _ _ _ _ E) as Hq.
  destruct x as [lvl m w1 w2 w3 w4 v]. unfold site_ok in Hok.
  unfold site_rewritten, rewritten, site_text.
  cbn [s_level s_message s_w1 s_w2 s_w3 s_w4 s_value] in *.
  apply andb_prop in Hok as [Hok Hv]. apply andb_prop in Hok as [Hok Hw4].
  apply andb_prop in Hok as [Hok Hw3]. apply andb_prop in Hok as [Hok Hw2].
  apply andb_prop in Hok as [Hok Hw1]. apply andb_prop in Hok as [Hl Hm].
  apply message_no_comma in Hm. apply value_no_close in Hv.
  apply forallb_space_not_close in Hw1, Hw2, Hw3, Hw4.
  replace ((text "logger." ++ lvl ++ text "(" ++ m ++ text ", { component: "
            ++ v ++ text ", error })") ++ y1)
    with (ch "l" :: (text "ogger." ++ lvl ++ text "(" ++ m) ++ text "," ++
          text " {" ++ text " component: " ++ v ++ text ", error })" ++ y1)
    by same_text.
  replace ((text "logger." ++ lvl ++ text "(" ++ m ++ text "," ++ w1 ++
            text "error," ++ w2 ++ text "{" ++ w3 ++ text "component:" ++
            w4 ++ v ++ text "})") ++ y2)
    with (ch "l" :: (text "ogger." ++ lvl ++ text "(" ++ m) ++ text "," ++
          (w1 ++ text "error," ++ w2 ++ text "{" ++ w3 ++
           text "component:" ++ w4 ++ v) ++ text "})" ++ y2)
    by same_text.
  apply (cross_state lvl0 q _ _ _ Hl0 Hq).
  - rewrite !forallb_app, Hm.
    destruct (level_cases _ Hl) as [->| ->]; reflexivity.
  - rewrite drop_while_app_all.
    + exact (close_accepts y2).
    + rewrite !forallb_app, Hw1, Hw2, Hw3, Hw4, Hv. reflexivity.
Qed.

(** A match that starts before a rewritten call site and reaches into it
    was a match of the original text. *)
Lemma cross_site x pre y1 y2 :
  site_ok x = true -> pre <> [] ->
  match_direct (pre ++ site_rewritten x ++ y1) <> None ->
  match_direct (pre ++ site_text x ++ y2) <> None.
Proof.
  intros Hok Hpre H1 H2. apply H1. apply no_match_machine in H2 as [Hw Hi].
  apply no_match_machine. split.
  - destruct (accepts (items (text "warn"))
                (pre ++ site_rewritten x ++ y1)) eqn:E; [|reflexivity].
    rewrite (cross_site_level _ x pre y1 y2 (or_introl eq_refl) Hok Hpre E)
      in Hw. discriminate.
  - destruct (accepts (items (text "info"))
                (pre ++ site_rewritten x ++ y1)) eqn:E; [|reflexivity].
    rewrite (cross_site_level _ x pre y1 y2 (or_intror eq_refl) Hok Hpre E)
      in Hi. discriminate.
Qed.

(** A match in the output that starts at a character the scan copied
    was a match of the input at that character. *)
Lemma cross_output s :
  forall pre, pre <> [] ->
    match_direct (pre ++ content_fixed s) <> None ->
    match_direct (pre ++ s) <> None.
Proof.
  induction s as [| d s Hno IH | x rest Hx IH] using scan_induction;
    intros pre Hpre.
  - now rewrite content_fixed_empty.
  - rewrite (content_fixed_other _ _ Hno).
    replace (pre ++ d :: content_fixed s)
      with ((pre ++ [d]) ++ content_fixed s) by now rewrite <- app_assoc.
    replace (pre ++ d :: s) with ((pre ++ [d]) ++ s)
      by now rewrite <- app_assoc.
    apply IH. now destruct pre.
  - rewrite (content_fixed_site _ _ Hx). now apply cross_site.
Qed.

Lemma values_flat_other d s :
  match_direct (d :: s) = None -> values_flat (d :: s) = values_flat s.
Proof. intros H. unfold values_flat. now rewrite (scan_other _ _ H). Qed.

Lemma values_flat_site x rest :
  site_ok x = true ->
  values_flat (site_text x ++ rest) =
  forallb no_open (s_value x) && values_flat rest.
Proof. intros H. unfold values_flat. now rewrite (scan_site _ _ H). Qed.

(** When no captured value holds an opening brace, the pattern matches
    nowhere in the output. *)
Lemma output_quiet s :
  values_flat s = true -> has_match (content_fixed s) = false.
Proof.
  induction s as [| d s Hno IH | x rest Hx IH] using scan_induction.
  - reflexivity.
  - rewrite (values_flat_other _ _ Hno), (content_fixed_other _ _ Hno).
    intros Hf. rewrite has_match_cons, (IH Hf), orb_false_r.
    destruct (match_direct (d :: content_fixed s)) eqn:E; [|reflexivity].
    exfalso. apply (cross_output s [d]); [discriminate| |exact Hno].
    cbn [app]. congruence.
  - rewrite (values_flat_site _ _ Hx), (content_fixed_site _ _ Hx).
    intros Hf. apply andb_prop in Hf as [Hv Hf].
    rewrite (rewritten_site_quiet _ _ Hx Hv). now apply IH.
Qed.

Lemma content_fixed_twice s :
  values_flat s = true ->
  content_fixed (content_fixed s) = content_fixed s.
Proof.
  intros Hf. apply content_fixed_no_site. intros H.
  apply contains_site_has_match in H. rewrite (output_quiet _ Hf) in H.
  discriminate.
Qed.

End TwiceFacts.
Import TwiceFacts.

(** ** Line endings and the text layer *)

Module DriverFacts.

Lemma universal_newlines_no_cr s :
  forallb not_cr s = true -> universal_newlines s = s.
Proof.
  induction s as [|d s IH]; [reflexivity|].
  cbn [forallb universal_newlines]. unfold not_cr at 1.
  intros H. apply andb_prop in H as [Hd Hs].
  apply negb_true_iff in Hd. rewrite Hd. now rewrite (IH Hs).
Qed.

Lemma universal_newlines_clean_upto n :
  forall s, length s <= n -> forallb not_cr (universal_newlines s) = true.
Proof.
  induction n as [|n IH]; intros s Hn.
  - destruct s; [reflexivity|simpl in Hn; lia].
  - destruct s as [|d s]; [reflexivity|]. cbn [universal_newlines].
    simpl in Hn. destruct (d =? 13)%N eqn:Ed.
    + cbn [forallb]. change (not_cr 10) with true. cbn [andb].
      destruct s as [|e s]; [reflexivity|]. simpl in Hn.
      destruct (e =? 10)%N; apply IH; simpl; lia.
    + cbn [forallb]. unfold not_cr at 1. rewrite Ed. cbn [negb andb].
      apply IH. lia.
Qed.

(** What is read holds no carriage return. *)
Lemma universal_newlines_clean s :
  forallb not_cr (universal_newlines s) = true.
Proof. exact (universal_newlines_clean_upto (length s) s (le_n _)). Qed.

Lemma host_newlines_posix s : host_newlines Posix s = s.
Proof.
  induction s as [|d s IH]; [reflexivity|].
  change (host_newlines Posix (d :: s))
    with ((if (d =? 10)%N then [10%N] else [d]) ++ host_newlines Posix s).
  rewrite IH. destruct (N.eqb_spec d 10) as [-> |]; reflexivity.
Qed.

(** A text without carriage return is read back as it was written. *)
Lemma read_back o t :
  forallb not_cr t = true ->
  universal_newlines (host_newlines o t) = t.
Proof.
  destruct o.
  - intros H. rewrite host_newlines_posix.
    now apply universal_newlines_no_cr.
  - induction t as [|d t IH]; [reflexivity|].
    change (host_newlines Windows (d :: t))
      with ((if (d =? 10)%N then [13%N; 10%N] else [d])
            ++ host_newlines Windows t).
    cbn [forallb]. unfold not_cr at 1.
    intros H. apply andb_prop in H as [Hd Ht].
    apply negb_true_iff in Hd.
    destruct (N.eqb_spec d 10) as [-> | Hn].
    + cbn [app universal_newlines].
      change (13 =? 13)%N with true. change (10 =? 10)%N with true.
      cbv iota. now rewrite (IH Ht).
    + cbn [app universal_newlines]. rewrite Hd. now rewrite (IH Ht).
Qed.

(** The substitution brings in no carriage return. *)
Lemma content_fixed_clean s :
  forallb not_cr s = true -> forallb not_cr (content_fixed s) = true.
Proof.
  induction s as [| d s Hno IH | x rest Hx IH] using scan_induction.
  - reflexivity.
  - rewrite (content_fixed_other _ _ Hno). cbn [forallb].
    intros H. apply andb_prop in H as [Hd Hs]. now rewrite Hd, (IH Hs).
  - rewrite (content_fixed_site _ _ Hx).
    unfold site_text, site_rewritten, rewritten.
    rewrite !forallb_app. intros H.
    repeat match goal with
           | H : _ && _ = true |- _ =>
               let H1 := fresh "H" in
               apply andb_prop in H as [H1 H]
           end.
    repeat (apply andb_true_intro; split);
      solve [assumption | reflexivity | now apply IH].
Qed.

Lemma put_file_same w path data :
  files (put_file w path data) path = Some data.
Proof.
  unfold put_file. cbn [files].
  now rewrite (proj2 (str_eqb_eq path path) eq_refl).
Qed.


Lemma falsy_path path : path <> [] -> falsy (Some path) = false.
Proof. destruct path; [congruence|reflexivity]. Qed.

Ltac run_main :=
  cbv [main io_bind when falsy ret as_path read_text write_text print log
       sys_exit st_world st_stdout st_log].

(** Every run takes one of the four courses. *)
Lemma main_course argv st : course argv st.
Proof.
  destruct (file_path argv) as [[|d path]|] eqn:Ep.
  - apply course_usage; [now rewrite Ep|]. unfold main. now rewrite Ep.
  - destruct st as [w out lg].
    destruct (files w (d :: path)) as [content|] eqn:Ef.
    + destruct (writable w (d :: path)) eqn:Ew.
      * apply (course_fixed _ _ (d :: path) content); auto; [discriminate|].
        unfold main. rewrite Ep. run_main. rewrite Ef. run_main. rewrite Ew.
        now rewrite <- !app_assoc.
      * apply (course_unwritable _ _ (d :: path) content); auto;
          [discriminate|].
        unfold main. rewrite Ep. run_main. rewrite Ef. run_main. rewrite Ew.
        now rewrite <- !app_assoc.
    + apply (course_unreadable _ _ (d :: path)); auto; [discriminate|].
      unfold main. rewrite Ep. run_main. now rewrite Ef.
  - apply course_usage; [now rewrite Ep|]. unfold main. now rewrite Ep.
Qed.

(** The run on a file that can be read and written. *)
Lemma main_fixed argv path content st :
  file_path argv = Some path ->
  path <> [] ->
  files (st_world st) path = Some content ->
  writable (st_world st) path = true ->
  main argv st =
    (Ok tt,
     {| st_world :=
          put_file (st_world st) path
            (host_newlines (platform (st_world st))
               (content_fixed (universal_newlines content)));
        st_stdout := st_stdout st ++ (text "Fixed: " ++ path) ++ newline;
        st_log := st_log st ++
                  [Opened path ForReading; ReadAll path;
                   Opened path ForWriting;
                   Written path
                     (content_fixed (universal_newlines content))] |}).
Proof.
  intros Hp Hne Hf Hw.
  destruct (main_course argv st)
    as [Hfa _ | p Hp' _ Hf' _ | p c Hp' _ _ Hw' _ | p c Hp' _ Hf' _ E].
  - rewrite Hp, (falsy_path _ Hne) in Hfa. discriminate.
  - assert (p = path) by congruence. subst p. congruence.
  - assert (p = path) by congruence. subst p. congruence.
  - assert (p = path) by congruence. subst p.
    assert (c = content) by congruence. subst c. exact E.
Qed.

End DriverFacts.
Import DriverFacts.

(** * Properties of the script *)

(** C1, as stated, fails: the line with the extra key is not left as it
    is. *)
Lemma extra_key_line_changed :
  content_fixed cache_miss_line <> cache_miss_line.
Proof. vm_compute. discriminate. Qed.

(** C1, amended: the line [logger.warn('Cache miss', error, { component:
    'cache', extra: 1 })] is rewritten; the value group takes every
    character up to the closing brace, further keys included, and
    [, error] is put after them, whitespace apart. *)
Theorem extra_key_line_rewritten :
  exists w,
    forallb is_space w = true /\
    content_fixed cache_miss_line =
    text "logger.warn('Cache miss', { component: 'cache', extra: 1"
    ++ w ++ text ", error })".
Proof. exists (text " "). split; vm_compute; reflexivity. Qed.

(** C2, on the code: the canonical lines come out with a space before the
    comma added in front of [error], because group 3 keeps the whitespace
    that precedes the closing brace; the form the comment of the script
    announces does not occur in the output. *)
Theorem canonical_lines_keep_space :
  content_fixed saved_record_line =
    text "logger.info('Saved record:', { component: 'storage' , error })" /\
  content_fixed msg_line =
    text "logger.warn('msg', { component: 'X' , error })" /\
  count_occ_str (text "logger.warn('msg', { component: 'X', error })")
                (content_fixed msg_line) = 0.
Proof. repeat split; vm_compute; reflexivity. Qed.

(** C3, as stated, fails: when the value of a call site holds another call
    site, the first application rewrites the outer one and the second
    application rewrites the inner one. *)
Lemma second_application_changes :
  content_fixed nested_call =
    text "logger.warn('a', { component: f(() => logger.warn('b', error, { component: 'c' , error })) })" /\
  content_fixed (content_fixed nested_call) =
    text "logger.warn('a', { component: f(() => logger.warn('b', { component: 'c' , error , error })) })" /\
  content_fixed (content_fixed nested_call) <> content_fixed nested_call.
Proof. split; [|split]; vm_compute; solve [reflexivity | discriminate]. Qed.

(** C3, amended: on every input in which no value captured by a match
    holds an opening brace, the substitution applied to its own output
    changes nothing, the pattern matching nowhere in that output. *)
Theorem idempotent_on_flat_values s :
  values_flat s = true ->
  content_fixed (content_fixed s) = content_fixed s.
Proof. apply content_fixed_twice. Qed.

Lemma idempotent_on_flat_values_witness :
  content_fixed (content_fixed msg_line) = content_fixed msg_line.
Proof.
  apply (idempotent_on_flat_values msg_line). vm_compute. reflexivity.
Defined.

(** C4: a text that contains no call site of the matched shape is returned
    as it is. *)
Theorem no_site_identity s :
  ~ contains_site s -> content_fixed s = s.
Proof. apply content_fixed_no_site. Qed.

Lemma no_site_identity_witness :
  content_fixed error_level_line = error_level_line.
Proof.
  apply (no_site_identity error_level_line).
  intros H. apply contains_site_has_match in H. vm_compute in H.
  discriminate H.
Defined.

(** C5, as stated, fails: a call with level [error] that stands where a
    warn call has its message is changed. *)
Lemma error_call_inside_warn_changed :
  is_infix inner_error_call error_inside_warn = true /\
  content_fixed error_inside_warn =
    text "logger.warn(logger.error('m', { component: 'x' , error }), error, { component: 'y' })" /\
  is_infix inner_error_call (content_fixed error_inside_warn) = false.
Proof. repeat split; vm_compute; reflexivity. Qed.

(** C5, amended: on every input the scan splits the text into pieces
    whose renderings, in the same order, make up the output; each piece is
    either copied as it is or starts with [logger.warn(] or
    [logger.info(], in exactly this spelling.  A call with another level
    name thus starts no replaced piece, and its text changes only where it
    lies inside a piece that starts at a warn or info call. *)
Theorem only_warn_info_matched s :
  flat_map source (scan pattern s) = s /\
  flat_map (render replacement) (scan pattern s) = content_fixed s /\
  forall p, In p (scan pattern s) ->
    render replacement p = source p \/
    exists tail,
      source p = text "logger.warn(" ++ tail \/
      source p = text "logger.info(" ++ tail.
Proof.
  split; [apply scan_covers_input|]. split; [reflexivity|].
  intros [d | m c] Hin; [now left|]. right.
  apply scan_hits_sites in Hin as [x [Hx [-> _]]].
  unfold site_ok in Hx. repeat (apply andb_prop in Hx as [Hx _]).
  unfold level_ok in Hx. cbn [source]. unfold site_text.
  apply orb_prop in Hx as [E|E]; apply str_eqb_eq in E; rewrite E;
    eexists; [left|right]; reflexivity.
Qed.

(** C6: without a file-path argument the usage message goes to standard
    output, the status is 1, and no file is opened, read or written. *)
Theorem no_argument_usage argv st :
  length argv <= 1 ->
  main argv st =
    (Exited 1, {| st_world := st_world st;
                  st_stdout := st_stdout st ++ usage ++ newline;
                  st_log := st_log st |}) /\
  exit_status (fst (main argv st)) <> 0%Z.
Proof.
  intros H.
  assert (E : file_path argv = None).
  { unfold file_path. destruct argv as [|a [|b l]]; try reflexivity.
    simpl in H. lia. }
  unfold main. rewrite E. split; [reflexivity|]. simpl. discriminate.
Qed.

Lemma no_argument_usage_witness :
  main [script_name] (start (one_file (text "a.ts") msg_line)) =
    (Exited 1, {| st_world := one_file (text "a.ts") msg_line;
                  st_stdout := usage ++ newline;
                  st_log := [] |}).
Proof.
  apply (proj1 (no_argument_usage [script_name]
                  (start (one_file (text "a.ts") msg_line))
                  (le_n 1))).
Defined.

(** C7, as stated, fails: a file without call site whose lines end in
    [\r\n] is read with [\n] in their place and, on a platform whose line
    separator is [\n], written back so: the run succeeds and the file no
    longer holds what it held. *)
Lemma crlf_file_not_identical :
  ~ contains_site crlf_text /\
  fst (main [script_name; text "a.ts"]
            (start (one_file (text "a.ts") crlf_text))) = Ok tt /\
  files (st_world (snd (main [script_name; text "a.ts"]
                             (start (one_file (text "a.ts") crlf_text)))))
        (text "a.ts")
    = Some (text "a" ++ [10%N] ++ text "b") /\
  files (st_world (snd (main [script_name; text "a.ts"]
                             (start (one_file (text "a.ts") crlf_text)))))
        (text "a.ts")
    <> files (st_world (start (one_file (text "a.ts") crlf_text)))
             (text "a.ts").
Proof.
  split; [|split; [|split]].
  - intros H. apply contains_site_has_match in H. vm_compute in H.
    discriminate H.
  - vm_compute. reflexivity.
  - vm_compute. reflexivity.
  - vm_compute. discriminate.
Qed.

(** C7, amended: when the file can be read and written, it is written
    with the transformed text of what was read, in the platform's line
    endings, whether or not anything matched; [Fixed: <path>] is printed
    and the status is 0.  With no call site in it the text written is the
    text read, and the file holds what it held when moreover it has no
    carriage return and the platform's line separator is [\n]. *)
Theorem successful_run argv path content st :
  file_path argv = Some path ->
  path <> [] ->
  files (st_world st) path = Some content ->
  writable (st_world st) path = true ->
  main argv st =
    (Ok tt,
     {| st_world :=
          put_file (st_world st) path
            (host_newlines (platform (st_world st))
               (content_fixed (universal_newlines content)));
        st_stdout := st_stdout st ++ (text "Fixed: " ++ path) ++ newline;
        st_log := st_log st ++
                  [Opened path ForReading; ReadAll path;
                   Opened path ForWriting;
                   Written path
                     (content_fixed (universal_newlines content))] |}) /\
  exit_status (fst (main argv st)) = 0%Z /\
  files (st_world (snd (main argv st))) path
    = Some (host_newlines (platform (st_world st))
              (content_fixed (universal_newlines content))) /\
  (~ contains_site (universal_newlines content) ->
   content_fixed (universal_newlines content) = universal_newlines content) /\
  (~ contains_site content ->
   forallb not_cr content = true ->
   platform (st_world st) = Posix ->
   files (st_world (snd (main argv st))) path = Some content).
Proof.
  intros Hp Hne Hr Hw.
  rewrite (main_fixed _ _ _ _ Hp Hne Hr Hw). cbn [fst snd st_world].
  rewrite put_file_same. repeat split.
  - apply content_fixed_no_site.
  - intros Hno Hcr Hos. rewrite Hos, host_newlines_posix.
    rewrite (universal_newlines_no_cr _ Hcr).
    now rewrite (content_fixed_no_site _ Hno).
Qed.

Lemma successful_run_witness :
  files (st_world
           (snd (main [script_name; text "a.ts"]
                      (start (one_file (text "a.ts") error_level_line)))))
        (text "a.ts")
  = Some error_level_line.
Proof.
  apply (successful_run [script_name; text "a.ts"] (text "a.ts")
           error_level_line
           (start (one_file (text "a.ts") error_level_line))
           eq_refl ltac:(discriminate) eq_refl eq_refl).
  - intros H. apply contains_site_has_match in H. vm_compute in H.
    discriminate H.
  - reflexivity.
  - reflexivity.
Defined.

(** C8: the output is the input with every call site met from left to
    right replaced by its rewritten form, and every character at which no
    call site starts copied as it is. *)
Theorem sites_rewritten_rest_kept s : rewrites s (content_fixed s).
Proof. apply content_fixed_rewrites. Qed.

(** C9: an empty first argument is handled like a missing one: usage
    message, status 1, no file operation. *)
Theorem empty_argument_usage prog more st :
  main (prog :: [] :: more) st =
    (Exited 1, {| st_world := st_world st;
                  st_stdout := st_stdout st ++ usage ++ newline;
                  st_log := st_log st |}).
Proof. reflexivity. Qed.

(** C10: the pattern is not anchored on its left: a call site preceded by
    any characters other than the letter l, such as [my] in
    [mylogger.warn(...)], is rewritten and those characters are kept. *)
Theorem unanchored_receiver before x rest :
  forallb (fun d => negb (d =? ch "l")%N) before = true ->
  site_ok x = true ->
  content_fixed (before ++ site_text x ++ rest) =
  before ++ site_rewritten x ++ content_fixed rest.
Proof.
  intros Hb Hx. rewrite (content_fixed_before _ _ Hb).
  now rewrite (content_fixed_site _ _ Hx).
Qed.

Lemma unanchored_receiver_witness :
  content_fixed (text "mylogger.warn('m', error, { component: 'x' })") =
  text "mylogger.warn('m', { component: 'x' , error })".
Proof.
  apply (unanchored_receiver (text "my") mylogger_site [] eq_refl eq_refl).
Defined.

(** * Further properties of the script *)

(** ** The pattern *)

(** X1: the pattern matches at the start of a text exactly when the text
    starts with a call site of the shape
    [logger.<level>(<message>,<w1>error,<w2>{<w3>component:<w4><value>})];
    the groups captured are the level, the message and the value, and what
    follows the call site is what is left. *)
Theorem pattern_matches_call_sites t c rest :
  match_at pattern t = Some (c, rest) <->
  exists x, site_ok x = true /\ c = site_captures x /\
            t = site_text x ++ rest.
Proof. rewrite match_at_pattern. apply match_direct_spec. Qed.

(** X2: a call site at the start of the text is replaced by
    [logger.<level>(<message>, { component: <value>, error })] whatever
    whitespace, line breaks included, stood between its arguments; level,
    message and value are carried over as they are and the rest of the
    text is processed in turn. *)
Theorem call_site_rewritten x rest :
  site_ok x = true ->
  content_fixed (site_text x ++ rest) =
  text "logger." ++ s_level x ++ text "(" ++ s_message x ++
  text ", { component: " ++ s_value x ++ text ", error })" ++
  content_fixed rest.
Proof.
  intros Hx. rewrite (content_fixed_site _ _ Hx).
  unfold site_rewritten, rewritten. now rewrite <- !app_assoc.
Qed.

Lemma call_site_rewritten_witness :
  content_fixed (text "logger.info('m'," ++ line_break ++ text "error," ++
                 line_break ++ text "{component:'x'})") =
  text "logger.info('m', { component: 'x', error })".
Proof.
  apply (call_site_rewritten multi_line_site [] eq_refl).
Defined.

(** X3: the rewritten form of a call site is not matched where it starts,
    whatever follows it: after its first argument comes [{], not
    [error]. *)
Theorem rewritten_form_not_matched x rest :
  site_ok x = true ->
  match_at pattern (site_rewritten x ++ rest) = None.
Proof.
  intros Hok. rewrite match_at_pattern.
  destruct x as [lvl m w1 w2 w3 w4 v]. unfold site_ok in Hok.
  unfold site_rewritten, rewritten.
  cbn [s_level s_message s_w1 s_w2 s_w3 s_w4 s_value] in *.
  apply andb_prop in Hok as [Hok _].
  do 4 (apply andb_prop in Hok as [Hok _]).
  apply andb_prop in Hok as [Hl Hm]. apply message_no_comma in Hm.
  replace ((text "logger." ++ lvl ++ text "(" ++ m ++ text ", { component: "
            ++ v ++ text ", error })") ++ rest)
    with ((text "logger." ++ lvl ++ text "(" ++ m) ++ text ", {" ++
          text " component: " ++ v ++ text ", error })" ++ rest)
    by same_text.
  apply no_match_comma_brace.
  rewrite !forallb_app, Hm.
  destruct (level_cases _ Hl) as [->| ->]; reflexivity.
Qed.

Lemma rewritten_form_not_matched_witness :
  match_at pattern (text "logger.warn('m', { component: 'x' , error })")
  = None.
Proof.
  apply (rewritten_form_not_matched mylogger_site [] eq_refl).
Defined.

(** X4: after the first comma of a call and the whitespace behind it the
    text must read [error,]: when it does not, as in a call that passes
    another name, no match starts at that call. *)
Theorem second_argument_must_be_error lvl m rest :
  level_ok lvl = true ->
  message_ok m = true ->
  strip_prefix (text "error,") (drop_while is_space rest) = None ->
  match_at pattern (text "logger." ++ lvl ++ text "(" ++ m ++ text "," ++ rest)
  = None.
Proof.
  intros Hl Hm He. rewrite match_at_pattern. unfold match_direct.
  rewrite strip_prefix_same. cbn [bind].
  rewrite (proj2 (level_of_spec _ lvl _) (conj Hl eq_refl)).
  cbn [bind fst snd]. rewrite strip_prefix_same. cbn [bind].
  rewrite (proj2 (message_of_spec _ m _) (conj Hm eq_refl)).
  cbn [bind fst snd]. now rewrite He.
Qed.

Lemma second_argument_must_be_error_witness :
  match_at pattern (text "logger.warn('m', err, { component: 'x' })") = None.
Proof.
  apply (second_argument_must_be_error (text "warn") (text "'m'")
           (text " err, { component: 'x' })") eq_refl eq_refl eq_refl).
Defined.

(** X5: the first key of the object literal must be [component]: when
    the text after the opening brace and the whitespace behind it does not
    read [component:], no match starts at that call. *)
Theorem first_key_must_be_component lvl m w1 w2 rest :
  level_ok lvl = true ->
  message_ok m = true ->
  forallb is_space w1 = true ->
  forallb is_space w2 = true ->
  strip_prefix (text "component:") (drop_while is_space rest) = None ->
  match_at pattern (text "logger." ++ lvl ++ text "(" ++ m ++ text "," ++
                    w1 ++ text "error," ++ w2 ++ text "{" ++ rest)
  = None.
Proof.
  intros Hl Hm Hw1 Hw2 Hc. rewrite match_at_pattern. unfold match_direct.
  rewrite strip_prefix_same. cbn [bind].
  rewrite (proj2 (level_of_spec _ lvl _) (conj Hl eq_refl)).
  cbn [bind fst snd]. rewrite strip_prefix_same. cbn [bind].
  rewrite (proj2 (message_of_spec _ m _) (conj Hm eq_refl)).
  cbn [bind fst snd].
  rewrite (proj2 (strip_after_space (ch "e") (text "rror,") _ _ eq_refl)
             (ex_intro _ w1 (conj Hw1 eq_refl))).
  cbn [bind].
  rewrite (proj2 (strip_after_space (ch "{") [] _ _ eq_refl)
             (ex_intro _ w2 (conj Hw2 eq_refl))).
  cbn [bind]. now rewrite Hc.
Qed.

Lemma first_key_must_be_component_witness :
  match_at pattern
    (text "logger.warn('m', error, { extra: 1, component: 'x' })") = None.
Proof.
  apply (first_key_must_be_component (text "warn") (text "'m'") (text " ")
           (text " ") (text " extra: 1, component: 'x' })")
           eq_refl eq_refl eq_refl eq_refl eq_refl).
Defined.

(** X6: a call [logger.<name>(] whose name is not exactly [warn] or
    [info] -- another level, or one of the two in another case -- never
    starts a match. *)
Theorem other_level_never_starts_match lvl rest :
  level_ok lvl = false ->
  ~ In (ch "(") lvl ->
  match_at pattern (text "logger." ++ lvl ++ text "(" ++ rest) = None.
Proof. apply other_level_no_match. Qed.

Lemma other_level_never_starts_match_witness :
  match_at pattern (text "logger.Warn('m', error, { component: 'x' })")
  = None.
Proof.
  apply (other_level_never_starts_match (text "Warn")
           (text "'m', error, { component: 'x' })") eq_refl).
  vm_compute. intuition discriminate.
Defined.

(** X13: the closing brace that ends the value must be followed by [)]:
    when the first [}] after [component:] is followed by anything else,
    as with a nested object literal, the call is not matched. *)
Theorem brace_must_close_call lvl m w1 w2 w3 r rest :
  level_ok lvl = true ->
  message_ok m = true ->
  forallb is_space w1 = true ->
  forallb is_space w2 = true ->
  forallb is_space w3 = true ->
  forallb not_close r = true ->
  strip_prefix (text ")") rest = None ->
  match_at pattern (text "logger." ++ lvl ++ text "(" ++ m ++ text "," ++
                    w1 ++ text "error," ++ w2 ++ text "{" ++ w3 ++
                    text "component:" ++ r ++ text "}" ++ rest)
  = None.
Proof.
  intros Hl Hm Hw1 Hw2 Hw3 Hr Hc. rewrite match_at_pattern.
  unfold match_direct. rewrite strip_prefix_same. cbn [bind].
  rewrite (proj2 (level_of_spec _ lvl _) (conj Hl eq_refl)).
  cbn [bind fst snd]. rewrite strip_prefix_same. cbn [bind].
  rewrite (proj2 (message_of_spec _ m _) (conj Hm eq_refl)).
  cbn [bind fst snd].
  rewrite (proj2 (strip_after_space (ch "e") (text "rror,") _ _ eq_refl)
             (ex_intro _ w1 (conj Hw1 eq_refl))).
  cbn [bind].
  rewrite (proj2 (strip_after_space (ch "{") [] _ _ eq_refl)
             (ex_intro _ w2 (conj Hw2 eq_refl))).
  cbn [bind].
  rewrite (proj2 (strip_after_space (ch "c") (text "omponent:") _ _ eq_refl)
             (ex_intro _ w3 (conj Hw3 eq_refl))).
  cbn [bind]. unfold value_of.
  rewrite (drop_while_app_all _ _ _ Hr).
  change (strip_prefix (text "})") (drop_while not_close (text "}" ++ rest)))
    with (strip_prefix (text ")") rest).
  now rewrite Hc.
Qed.

Lemma brace_must_close_call_witness :
  match_at pattern
    (text "logger.warn('m', error, { component: { a: 1 } })") = None.
Proof.
  apply (brace_must_close_call (text "warn") (text "'m'") (text " ")
           (text " ") (text " ") (text " { a: 1 ") (text " })")
           eq_refl eq_refl eq_refl eq_refl eq_refl eq_refl eq_refl).
Defined.

Lemma is_infix_cons a d s : is_infix a s = true -> is_infix a (d :: s) = true.
Proof.
  intros H. cbn [is_infix]. rewrite H.
  now destruct (strip_prefix a (d :: s)).
Qed.

Lemma is_infix_inside a u v : is_infix a (u ++ a ++ v) = true.
Proof.
  induction u as [|d u IH].
  - cbn [app]. destruct (a ++ v) as [|e l] eqn:E.
    + destruct a; [reflexivity|discriminate].
    + cbn [is_infix]. rewrite <- E. now rewrite strip_prefix_same.
  - cbn [app]. now apply is_infix_cons.
Qed.

Lemma site_keywords before x rest :
  is_infix (text "logger.") (before ++ site_text x ++ rest) = true /\
  is_infix (text "error,") (before ++ site_text x ++ rest) = true /\
  is_infix (text "component:") (before ++ site_text x ++ rest) = true.
Proof.
  destruct x as [lvl m w1 w2 w3 w4 v]. unfold site_text.
  cbn [s_level s_message s_w1 s_w2 s_w3 s_w4 s_value].
  split; [|split].
  - rewrite <- !app_assoc. apply is_infix_inside.
  - replace (before ++ (text "logger." ++ lvl ++ text "(" ++ m ++ text "," ++
             w1 ++ text "error," ++ w2 ++ text "{" ++ w3 ++
             text "component:" ++ w4 ++ v ++ text "})") ++ rest)
      with ((before ++ text "logger." ++ lvl ++ text "(" ++ m ++ text "," ++
             w1) ++ text "error," ++
            (w2 ++ text "{" ++ w3 ++ text "component:" ++ w4 ++ v ++
             text "})" ++ rest))
      by (rewrite <- !app_assoc; reflexivity).
    apply is_infix_inside.
  - replace (before ++ (text "logger." ++ lvl ++ text "(" ++ m ++ text "," ++
             w1 ++ text "error," ++ w2 ++ text "{" ++ w3 ++
             text "component:" ++ w4 ++ v ++ text "})") ++ rest)
      with ((before ++ text "logger." ++ lvl ++ text "(" ++ m ++ text "," ++
             w1 ++ text "error," ++ w2 ++ text "{" ++ w3) ++
            text "component:" ++ (w4 ++ v ++ text "})" ++ rest))
      by (rewrite <- !app_assoc; reflexivity).
    apply is_infix_inside.
Qed.

(** X14: a text in which one of [logger.], [error,] and [component:] does
    not occur comes back as it is. *)
Theorem text_without_keyword_unchanged s :
  is_infix (text "logger.") s = false \/
  is_infix (text "error,") s = false \/
  is_infix (text "component:") s = false ->
  content_fixed s = s.
Proof.
  intros H. apply content_fixed_no_site.
  intros [before [t [-> [x [rest [_ ->]]]]]].
  destruct (site_keywords before x rest) as [H1 [H2 H3]].
  destruct H as [H|[H|H]]; congruence.
Qed.

Lemma text_without_keyword_unchanged_witness :
  content_fixed (text "logger.warn('m', err, { component: 'x' })") =
  text "logger.warn('m', err, { component: 'x' })".
Proof.
  apply (text_without_keyword_unchanged
           (text "logger.warn('m', err, { component: 'x' })")).
  right. left. vm_compute. reflexivity.
Defined.

(** ** The driver *)

(** X7: when the file named on the command line cannot be read, the run
    ends with the uncaught error, status 1, and nothing else has happened:
    nothing is printed, no file operation is logged, the store is as it
    was. *)
Theorem unreadable_file_raises argv path st :
  file_path argv = Some path ->
  path <> [] ->
  files (st_world st) path = None ->
  main argv st = (Raised path, st) /\
  exit_status (fst (main argv st)) = 1%Z.
Proof.
  intros Hp Hne Hf.
  destruct (main_course argv st)
    as [Hfa _ | p Hp' _ _ E | p c Hp' _ Hf' _ _ | p c Hp' _ Hf' _ _].
  - rewrite Hp, (falsy_path _ Hne) in Hfa. discriminate.
  - assert (p = path) by congruence. subst p. rewrite E. now split.
  - assert (p = path) by congruence. subst p. congruence.
  - assert (p = path) by congruence. subst p. congruence.
Qed.

Lemma unreadable_file_raises_witness :
  main [script_name; text "a.ts"] (start no_file) =
    (Raised (text "a.ts"), start no_file).
Proof.
  apply (proj1 (unreadable_file_raises [script_name; text "a.ts"]
                  (text "a.ts") (start no_file)
                  eq_refl ltac:(discriminate) eq_refl)).
Defined.

(** X8: when the file can be read and cannot be opened for writing, the
    run ends with the uncaught error after the read: the file keeps its
    text, and [Fixed: <path>] is not printed. *)
Theorem unwritable_file_raises argv path content st :
  file_path argv = Some path ->
  path <> [] ->
  files (st_world st) path = Some content ->
  writable (st_world st) path = false ->
  main argv st =
    (Raised path,
     {| st_world := st_world st;
        st_stdout := st_stdout st;
        st_log := st_log st ++ [Opened path ForReading; ReadAll path] |}) /\
  files (st_world (snd (main argv st))) path = Some content.
Proof.
  intros Hp Hne Hf Hw.
  destruct (main_course argv st)
    as [Hfa _ | p Hp' _ Hf' _ | p c Hp' _ Hf' _ E | p c Hp' _ _ Hw' _].
  - rewrite Hp, (falsy_path _ Hne) in Hfa. discriminate.
  - assert (p = path) by congruence. subst p. congruence.
  - assert (p = path) by congruence. subst p. rewrite E. now split.
  - assert (p = path) by congruence. subst p. congruence.
Qed.

Lemma unwritable_file_raises_witness :
  main [script_name; text "a.ts"]
       (start (read_only_file (text "a.ts") msg_line)) =
    (Raised (text "a.ts"),
     {| st_world := read_only_file (text "a.ts") msg_line;
        st_stdout := [];
        st_log := [Opened (text "a.ts") ForReading;
                   ReadAll (text "a.ts")] |}).
Proof.
  apply (proj1 (unwritable_file_raises [script_name; text "a.ts"]
                  (text "a.ts") msg_line
                  (start (read_only_file (text "a.ts") msg_line))
                  eq_refl ltac:(discriminate) eq_refl eq_refl)).
Defined.



(** X10: arguments after the first are ignored: the run is the one on the
    first argument alone. *)
Theorem further_arguments_ignored prog path more st :
  main (prog :: path :: more) st = main [prog; path] st.
Proof. reflexivity. Qed.

(** X11: a run ends normally, with status 0, only after it has rewritten
    the file: a file was named, was read, and now holds the transformed
    text of what was read, in the platform's line endings; the last line
    printed is [Fixed: <path>] and the last file operation logged is the
    write. *)
Theorem normal_end_means_rewritten argv st :
  fst (main argv st) = Ok tt ->
  exists path content,
    file_path argv = Some path /\ path <> [] /\
    files (st_world st) path = Some content /\
    files (st_world (snd (main argv st))) path
      = Some (host_newlines (platform (st_world st))
                (content_fixed (universal_newlines content))) /\
    st_stdout (snd (main argv st))
      = st_stdout st ++ (text "Fixed: " ++ path) ++ newline /\
    st_log (snd (main argv st))
      = st_log st ++ [Opened path ForReading; ReadAll path;
                      Opened path ForWriting;
                      Written path
                        (content_fixed (universal_newlines content))].
Proof.
  intros Hok.
  destruct (main_course argv st)
    as [_ E | q _ _ _ E | q c _ _ _ _ E | q c Hq Hne Hf _ E];
    rewrite E in Hok; try discriminate.
  exists q, c. rewrite E. cbn [snd st_world st_stdout st_log].
  rewrite put_file_same. auto 7.
Qed.

Lemma normal_end_means_rewritten_witness :
  exists path content,
    file_path [script_name; text "a.ts"] = Some path /\ path <> [] /\
    files (st_world (start (one_file (text "a.ts") msg_line))) path
      = Some content /\
    files (st_world
             (snd (main [script_name; text "a.ts"]
                        (start (one_file (text "a.ts") msg_line))))) path
      = Some (host_newlines
                (platform (st_world (start (one_file (text "a.ts")
                                                     msg_line))))
                (content_fixed (universal_newlines content))) /\
    st_stdout (snd (main [script_name; text "a.ts"]
                         (start (one_file (text "a.ts") msg_line))))
      = st_stdout (start (one_file (text "a.ts") msg_line))
        ++ (text "Fixed: " ++ path) ++ newline /\
    st_log (snd (main [script_name; text "a.ts"]
                      (start (one_file (text "a.ts") msg_line))))
      = st_log (start (one_file (text "a.ts") msg_line))
        ++ [Opened path ForReading; ReadAll path;
            Opened path ForWriting;
            Written path (content_fixed (universal_newlines content))].
Proof.
  apply (normal_end_means_rewritten [script_name; text "a.ts"]
           (start (one_file (text "a.ts") msg_line))).
  vm_compute. reflexivity.
Defined.

(** X12: running the script twice on the same file: the second run
    succeeds as well and leaves the file with the substitution applied
    twice to the text first read, in the platform's line endings; when no
    value captured in that text holds an opening brace, the second run
    writes back what the first run wrote. *)
Theorem second_run argv path content st :
  file_path argv = Some path ->
  path <> [] ->
  files (st_world st) path = Some content ->
  writable (st_world st) path = true ->
  fst (main argv (snd (main argv st))) = Ok tt /\
  files (st_world (snd (main argv (snd (main argv st))))) path
    = Some (host_newlines (platform (st_world st))
              (content_fixed (content_fixed (universal_newlines content)))) /\
  (values_flat (universal_newlines content) = true ->
   files (st_world (snd (main argv (snd (main argv st))))) path
   = files (st_world (snd (main argv st))) path).
Proof.
  intros Hp Hne Hf Hw.
  rewrite (main_fixed _ _ _ _ Hp Hne Hf Hw). cbn [snd].
  set (once := content_fixed (universal_newlines content)).
  set (st1 := {| st_world :=
                   put_file (st_world st) path
                     (host_newlines (platform (st_world st)) once);
                 st_stdout := st_stdout st ++ (text "Fixed: " ++ path)
                              ++ newline;
                 st_log := st_log st ++ [Opened path ForReading;
                                         ReadAll path;
                                         Opened path ForWriting;
                                         Written path once] |}).
  assert (Hclean : forallb not_cr once = true)
    by (apply content_fixed_clean, universal_newlines_clean).
  assert (Hf1 : files (st_world st1) path
                = Some (host_newlines (platform (st_world st)) once))
    by apply put_file_same.
  assert (Hw1 : writable (st_world st1) path = true) by exact Hw.
  rewrite (main_fixed _ _ _ _ Hp Hne Hf1 Hw1). cbn [fst snd st_world].
  rewrite put_file_same, (read_back _ _ Hclean).
  change (platform (st_world st1)) with (platform (st_world st)).
  split; [reflexivity|]. split; [reflexivity|].
  intros Hv. rewrite Hf1. unfold once.
  now rewrite (content_fixed_twice _ Hv).
Qed.

Lemma second_run_witness :
  files (st_world
           (snd (main [script_name; text "a.ts"]
                      (snd (main [script_name; text "a.ts"]
                                 (start (one_file (text "a.ts")
                                                  nested_call)))))))
        (text "a.ts")
  = Some (content_fixed (content_fixed nested_call)).
Proof.
  apply (proj1 (proj2 (second_run [script_name; text "a.ts"] (text "a.ts")
                         nested_call
                         (start (one_file (text "a.ts") nested_call))
                         eq_refl ltac:(discriminate) eq_refl eq_refl))).
Defined.
